(** * Contagion simulation: a shallow embedding of [model.py]

    The three classes of [model.py] ([Point], [Cell], [Model]) are embedded as
    Rocq modules of the same names.

    - Python [int] is [Z]. A Python [float] is the real number it denotes
      (infinities and NaN are outside the model); comparisons and negation
      are exact on these values. The rounded operations of the code
      (the addition of [Point.add], the arithmetic and square root of
      [Point.distance], the products, sine and cosine of
      [random_direction]) are the fields of the class [Float64], about
      which nothing is assumed: what is proved holds however they round.
      The product and the difference of [random_location] are taken over
      the reals.
    - [Cell] objects are mutable and compared by identity ([==] and [in] on
      objects without [__eq__]); they live in a [Heap] indexed by object
      references, and the population is a list of references.
    - [random()] is a stream of draws with a cursor that counts the calls.
    - [ValueError] is an explicit outcome of the constructor. *)

From Stdlib Require Import PrimFloat FloatOps SpecFloat.
From Stdlib Require Import String ZArith List Bool Reals Lra Lia Permutation.
Import ListNotations.

Open Scope Z_scope.

(** ** The configuration module *)

(** Modelled from the spec: the module [projects.pj02.constants] that
    [model.py] imports is not part of the sources; it is a fixed configuration
    object that supplies the disease markers, the recovery period, the contact
    radius and the bounding box. Every definition below takes it as a
    parameter, and nothing is assumed about its values. *)
Record Constants : Type := mkConstants {
  VULNERABLE : Z;
  INFECTED : Z;
  IMMUNE : Z;
  RECOVERY_PERIOD : Z;
  CELL_RADIUS : R;
  MIN_X : R;
  MAX_X : R;
  MIN_Y : R;
  MAX_Y : R;
  BOUNDS_WIDTH : R;
  BOUNDS_HEIGHT : R
}.

(** [a < b] on floats, as a boolean. *)
Definition Rltb (a b : R) : bool := if Rlt_dec a b then true else false.

(** ** Floating-point arithmetic *)

(** The binary64 operations that the code applies to floats, each returning
    the rounded result: [+], [-], [*], [** n], [math.sqrt], [math.sin],
    [math.cos], and the constant [math.pi]. No law is assumed of them. *)
Class Float64 : Type := {
  fadd : R -> R -> R;
  fsub : R -> R -> R;
  fmul : R -> R -> R;
  fpow : R -> Z -> R;
  fsqrt : R -> R;
  fsin : R -> R;
  fcos : R -> R;
  fpi : R
}.

(** The operations without rounding. They agree with binary64 wherever the
    binary64 result is exact, as it is on the small integers of the
    examples. *)
Definition exact_arithmetic : Float64 := {|
  fadd := Rplus;
  fsub := Rminus;
  fmul := Rmult;
  fpow := fun a n => (a ^ Z.to_nat n)%R;
  fsqrt := sqrt;
  fsin := sin;
  fcos := cos;
  fpi := PI
|}.

(** ** class Point *)

Module Point.

Record t : Type := mk { x : R; y : R }.

Section Methods.

Context {fp : Float64}.

(** [Point.add]: a new point, the coordinate-wise sum. *)
Definition add (self other : t) : t :=
  let x' := fadd (x self) (x other) in
  let y' := fadd (y self) (y other) in
  mk x' y'.

(** [Point.distance]: [sqrt((self.x - other.x) ** 2 + (self.y - other.y) ** 2)]. *)
Definition distance (self other : t) : R :=
  fsqrt (fadd (fpow (fsub (x self) (x other)) 2)
              (fpow (fsub (y self) (y other)) 2)).

End Methods.

End Point.

(** ** Object references and the heap of cells *)

(** A reference is the identity of a [Cell] object. *)
Definition ref : Type := nat.

(** ** class Cell *)

Module Cell.

Record t : Type := mk {
  location : Point.t;
  direction : Point.t;
  sickness : Z
}.

Definition set_sickness (self : t) (s : Z) : t :=
  mk (location self) (direction self) s.

Definition set_location (self : t) (p : Point.t) : t :=
  mk p (direction self) (sickness self).

Definition set_direction (self : t) (p : Point.t) : t :=
  mk (location self) p (sickness self).

(** The heap: the cell stored at every reference. References that no
    population mentions hold a placeholder that is never read. *)
Definition Heap : Type := ref -> t.

Definition upd (h : Heap) (r : ref) (c : t) : Heap :=
  fun r' => if Nat.eqb r' r then c else h r'.

Section Methods.

Context {fp : Float64}.

Variable constants : Constants.

(** [Cell.__init__]: [sickness] keeps the class default [VULNERABLE]. *)
Definition init (loc dir : Point.t) : t :=
  mk loc dir (VULNERABLE constants).

Definition is_vulnerable (self : t) : bool :=
  sickness self =? VULNERABLE constants.

Definition is_infected (self : t) : bool :=
  sickness self >=? INFECTED constants.

Definition is_immune (self : t) : bool :=
  sickness self =? IMMUNE constants.

Definition contract_disease (self : t) : t :=
  set_sickness self (INFECTED constants).

Definition immunize (self : t) : t :=
  set_sickness self (IMMUNE constants).

(** [Cell.tick]: move, then count one more tick of sickness when infected
    and immunize once the count reaches [RECOVERY_PERIOD]. *)
Definition tick (self : t) : t :=
  let self := set_location self (Point.add (location self) (direction self)) in
  if is_infected self then
    let self := set_sickness self (sickness self + 1) in
    if sickness self >=? RECOVERY_PERIOD constants then immunize self
    else self
  else self.

Definition color (self : t) : string :=
  if is_infected self then "red"%string
  else if is_immune self then "blue"%string
  else "gray"%string.

(** [self.contact_with(other)]: both arguments are references, so that
    the call is defined when they alias. *)
Definition contact_with (self other : ref) (h : Heap) : Heap :=
  if is_infected (h self) && is_vulnerable (h other) then
    upd h other (contract_disease (h other))
  else if is_vulnerable (h self) && is_infected (h other) then
    upd h self (contract_disease (h self))
  else h.

End Methods.

End Cell.

(** ** class Model *)

Module Model.

Import Cell.

(** The [Model] object together with the cells its population refers to. *)
Record t : Type := mk {
  heap : Heap;
  population : list ref;
  time : Z
}.

(** The exception of the constructor. *)
Inductive exn : Type := ValueError (msg : string).

Inductive outcome : Type :=
| Done
| Raise (e : exn).

(** The source of randomness: [draws i] is what the [i]-th call of
    [random()] returns; a cursor counts the calls made so far. *)
Definition Random : Type := nat -> R.

(** A call [Cell.contact_with] made during a contact pass: (self, other). *)
Definition call : Type := (ref * ref)%type.

Section Methods.

Context {fp : Float64}.

Variable constants : Constants.

(** [Model.random_location]: two draws, x first. *)
Definition random_location (draws : Random) (n : nat) : Point.t * nat :=
  let start_x := (draws n * BOUNDS_WIDTH constants - MAX_X constants)%R in
  let start_y := (draws (S n) * BOUNDS_HEIGHT constants - MAX_Y constants)%R in
  (Point.mk start_x start_y, S (S n)).

(** [Model.random_direction]: one draw. *)
Definition random_direction (speed : R) (draws : Random) (n : nat) : Point.t * nat :=
  let random_angle := fmul (fmul 2 fpi) (draws n) in
  let dir_x := fmul (fcos random_angle) speed in
  let dir_y := fmul (fsin random_angle) speed in
  (Point.mk dir_x dir_y, S n).

(** One of the three construction loops of [__init__]: [count] times,
    draw a location and a direction, build a [Cell], apply [seed] to it
    (nothing, [sickness = INFECTED], or [sickness = IMMUNE]) and append
    the new object to the population. The new object is fresh: its
    reference is the number of objects appended so far. *)
Fixpoint spawn (count : nat) (seed : Cell.t -> Cell.t) (speed : R)
    (draws : Random) (st : t * nat) : t * nat :=
  match count with
  | O => st
  | S count' =>
      let '(self, n) := st in
      let '(start_loc, n) := random_location draws n in
      let '(start_dir, n) := random_direction speed draws n in
      let cell := seed (Cell.init constants start_loc start_dir) in
      let r : ref := length (population self) in
      spawn count' seed speed draws
        (mk (upd (heap self) r cell) (population self ++ [r]) (time self), n)
  end.

(** The object before [__init__] has filled it: no cell, [time = 0]. *)
Definition blank : t :=
  mk (fun _ => Cell.init constants (Point.mk 0 0) (Point.mk 0 0)) [] 0.

(** [Model.__init__]. The result is the outcome, the state of [self] when
    the constructor is left, and the number of random draws consumed. *)
Definition init (cells : Z) (speed : R) (start_infected start_immune : Z)
    (draws : Random) : outcome * t * nat :=
  let self := blank in
  if (start_infected >=? cells) || (start_infected <=? 0) then
    (Raise (ValueError "Some number of the Cell objects must begin infected."),
     self, O)
  else if (start_immune >=? cells) || (start_immune <? 0) then
    (Raise (ValueError "Immune cells must be less than the number of Cell objects."),
     self, O)
  else if start_immune + start_infected >=? cells then
    (Raise (ValueError "Immune and Infected cells must be less than the number of Cell objects."),
     self, O)
  else
    let st := (self, O) in
    let st := spawn (Z.to_nat (cells - start_infected - start_immune))
                    (fun c => c) speed draws st in
    let st := spawn (Z.to_nat start_infected)
                    (fun c => set_sickness c (INFECTED constants)) speed draws st in
    let st := spawn (Z.to_nat start_immune)
                    (fun c => set_sickness c (IMMUNE constants)) speed draws st in
    (Done, fst st, snd st).

(** [Model.enforce_bounds]: the first violated bound wins. *)
Definition enforce_bounds (cell : Cell.t) : Cell.t :=
  let loc := location cell in
  let dir := direction cell in
  if Rltb (MAX_X constants) (Point.x loc) then
    Cell.mk (Point.mk (MAX_X constants) (Point.y loc))
            (Point.mk (Point.x dir * -1) (Point.y dir)) (sickness cell)
  else if Rltb (Point.x loc) (MIN_X constants) then
    Cell.mk (Point.mk (MIN_X constants) (Point.y loc))
            (Point.mk (Point.x dir * -1) (Point.y dir)) (sickness cell)
  else if Rltb (MAX_Y constants) (Point.y loc) then
    Cell.mk (Point.mk (Point.x loc) (MAX_Y constants))
            (Point.mk (Point.x dir) (Point.y dir * -1)) (sickness cell)
  else if Rltb (Point.y loc) (MIN_Y constants) then
    Cell.mk (Point.mk (Point.x loc) (MIN_Y constants))
            (Point.mk (Point.x dir) (Point.y dir * -1)) (sickness cell)
  else cell.

(** The test of [check_contacts]:
    [cell.location.distance(other.location) < CELL_RADIUS]. *)
Definition near (h : Heap) (cell other : ref) : bool :=
  Rltb (Point.distance (location (h cell)) (location (h other)))
       (CELL_RADIUS constants).

(** The inner loop of [check_contacts] for one [cell]: [i] runs over the
    whole population (every branch of the source does [i += 1]), [rest]
    is [population[i:]]. Identity and membership in [used_cells] are
    decided on references. The calls of [contact_with] are logged. *)
Fixpoint scan (cell : ref) (used_cells : list ref) (rest : list ref)
    (st : Heap * list call) : Heap * list call :=
  match rest with
  | [] => st
  | other :: rest' =>
      if Nat.eqb cell other || existsb (Nat.eqb other) used_cells then
        scan cell used_cells rest' st
      else if near (fst st) cell other then
        scan cell used_cells rest'
          (contact_with constants cell other (fst st), snd st ++ [(cell, other)])
      else
        scan cell used_cells rest' st
  end.

(** The outer loop of [check_contacts]: [todo] is what is left of the
    iteration over the population, [pop] the whole population. *)
Fixpoint sweep (todo : list ref) (used_cells : list ref) (pop : list ref)
    (st : Heap * list call) : Heap * list call :=
  match todo with
  | [] => st
  | cell :: todo' =>
      let used_cells := used_cells ++ [cell] in
      sweep todo' used_cells pop (scan cell used_cells pop st)
  end.

(** [Model.check_contacts], with the log of the [contact_with] calls it
    makes, in order. *)
Definition check_contacts_log (self : t) : t * list call :=
  let st := sweep (population self) [] (population self) (heap self, []) in
  (mk (fst st) (population self) (time self), snd st).

Definition check_contacts (self : t) : t :=
  fst (check_contacts_log self).

(** [Model.tick]. *)
Definition tick (self : t) : t :=
  let time' := time self + 1 in
  let h := fold_left
             (fun h cell => upd h cell (enforce_bounds (Cell.tick constants (h cell))))
             (population self) (heap self) in
  check_contacts (mk h (population self) time').

(** [Model.is_complete]: the loop returns [False] at the first infected
    cell. *)
Fixpoint is_complete_from (h : Heap) (rest : list ref) : bool :=
  match rest with
  | [] => true
  | cell :: rest' =>
      if is_infected constants (h cell) then false
      else is_complete_from h rest'
  end.

Definition is_complete (self : t) : bool :=
  is_complete_from (heap self) (population self).

End Methods.

End Model.

Import Cell Model.

(** ** Derived notions used by the statements *)

(** The cells of a model, in population order. *)
Definition members (m : Model.t) : list Cell.t :=
  map (heap m) (population m).

(** How many cells of a list satisfy a query. *)
Definition count (query : Cell.t -> bool) (cs : list Cell.t) : Z :=
  Z.of_nat (length (filter query cs)).

(** The arguments that [Model.__init__] accepts. *)
Definition valid_arguments (cells start_infected start_immune : Z) : Prop :=
  0 < start_infected < cells /\
  0 <= start_immune < cells /\
  start_infected + start_immune < cells.

(** The half-open window of the specification's "infected" state. *)
Definition in_window (constants : Constants) (c : Cell.t) : Prop :=
  INFECTED constants <= sickness c < IMMUNE constants.

(** Modelled from the spec: sample values for the absent configuration
    module, with [VULNERABLE = 0], [INFECTED = 1], a contact radius of 15 and
    the box [-200, 200] x [-200, 200] of width and height 400. The immune
    marker and the recovery period are left to each example; the spec
    requires [INFECTED < IMMUNE] of them. *)
Definition sample_constants (immune recovery : Z) : Constants :=
  mkConstants 0 1 immune recovery 15 (-200) 200 (-200) 200 400 400.

(** Modelled from the spec: a configuration whose bounding box is
    [0, 400] x [0, 400], with width and height [MAX - MIN = 400] as the spec
    derives them. *)
Definition corner_box_constants : Constants :=
  mkConstants 0 1 (-1) 90 15 0 400 0 400 400 400.

(** A cell standing at the origin with a given sickness. *)
Definition cell_with (s : Z) : Cell.t :=
  Cell.mk (Point.mk 0 0) (Point.mk 0 0) s.

(** A heap given by the list of its first cells. *)
Definition heap_of (cs : list Cell.t) : Heap :=
  fun r => nth r cs (cell_with 0).

(** [n] successive calls of [Cell.tick] on one cell. *)
Definition ticks {fp : Float64} (constants : Constants) (n : nat) (c : Cell.t) : Cell.t :=
  Nat.iter n (Cell.tick constants) c.

(** The number of ticks a freshly infected cell stays infected. *)
Definition recovery_ticks (constants : Constants) : nat :=
  Z.to_nat (Z.max 1 (RECOVERY_PERIOD constants - INFECTED constants)).

(** A cell standing at [(px, py)] with a given sickness. *)
Definition cell_at (px py : R) (s : Z) : Cell.t :=
  Cell.mk (Point.mk px py) (Point.mk 0 0) s.

(** The calls [contact_with] of a list, made in order from a heap. *)
Definition apply_contacts (constants : Constants) (calls : list call)
    (h : Heap) : Heap :=
  fold_left (fun h c => contact_with constants (fst c) (snd c) h) calls h.

(** Does a call concern the unordered pair [{a, b}]? *)
Definition same_pair (a b : ref) (c : call) : bool :=
  (Nat.eqb a (fst c) && Nat.eqb b (snd c)) ||
  (Nat.eqb b (fst c) && Nat.eqb a (snd c)).

(** How many calls of a log concern the unordered pair [{a, b}]. *)
Definition times_contacted (a b : ref) (log : list call) : nat :=
  length (filter (same_pair a b) log).

(** The pairs (earlier, later) of a list that pass a test, every element
    with the elements after it, in order. *)
Fixpoint pairs_in_order (test : ref -> ref -> bool) (l : list ref) : list call :=
  match l with
  | [] => []
  | cell :: later =>
      map (pair cell) (filter (test cell) later) ++ pairs_in_order test later
  end.

(** The test that decides whether the unordered pair [{a, b}] is among the
    ordered pairs of a list: the one of the two that comes first, tested
    against the other, when the other comes later. *)
Fixpoint pair_test (test : ref -> ref -> bool) (a b : ref) (l : list ref) : bool :=
  match l with
  | [] => false
  | c :: later =>
      if Nat.eqb c a then existsb (Nat.eqb b) later && test a b
      else if Nat.eqb c b then existsb (Nat.eqb a) later && test b a
      else pair_test test a b later
  end.

(** Two lists of calls concern the same unordered pairs. *)
Definition same_pairs (l1 l2 : list call) : Prop :=
  forall a b, In (a, b) l1 \/ In (b, a) l1 <-> In (a, b) l2 \/ In (b, a) l2.

(** Two heaps whose cells stand at the same places with the same
    directions. *)
Definition same_geometry (h h' : Heap) : Prop :=
  forall r, location (h' r) = location (h r) /\
            direction (h' r) = direction (h r).

(** The cells that the inner loop of [check_contacts] contacts from [cell]:
    the two tests of the loop body, on the geometry of heap [h0]. *)
Definition eligible {fp : Float64} (constants : Constants) (h0 : Heap) (cell : ref)
    (used_cells : list ref) (other : ref) : bool :=
  negb (Nat.eqb cell other || existsb (Nat.eqb other) used_cells)
  && near constants h0 cell other.

(** The calls of the outer loop of [check_contacts], on the geometry of heap
    [h0]. *)
Fixpoint contacts_from {fp : Float64} (constants : Constants) (h0 : Heap)
    (used todo pop : list ref) : list call :=
  match todo with
  | [] => []
  | cell :: todo' =>
      map (pair cell) (filter (eligible constants h0 cell (used ++ [cell])) pop)
      ++ contacts_from constants h0 (used ++ [cell]) todo' pop
  end.

(** Does call [c] put cell [r] in contact with a cell that passes
    [is_infected] in heap [h]? *)
Definition exposes (constants : Constants) (h : Heap) (r : ref) (c : call) : bool :=
  (Nat.eqb r (fst c) && is_infected constants (h (snd c))) ||
  (Nat.eqb r (snd c) && is_infected constants (h (fst c))).

(** A cell that is vulnerable in heap [h] and that some call of [calls] puts
    in contact with a cell infected in [h]. *)
Definition exposed (constants : Constants) (h : Heap) (calls : list call)
    (r : ref) : bool :=
  is_vulnerable constants (h r) && existsb (exposes constants h r) calls.

(** No call of [calls] is between two cells that are both vulnerable in
    heap [h]. *)
Definition no_vulnerable_pair (constants : Constants) (h : Heap)
    (calls : list call) : Prop :=
  forall c, In c calls ->
            is_vulnerable constants (h (fst c))
            && is_vulnerable constants (h (snd c)) = false.

(** Exposure is closed under the contacts of vulnerable pairs: when both
    cells of a call are vulnerable in heap [h], either both or neither are
    exposed. *)
Definition exposure_closed (constants : Constants) (h : Heap)
    (calls : list call) : Prop :=
  forall c, In c calls ->
            is_vulnerable constants (h (fst c)) = true ->
            is_vulnerable constants (h (snd c)) = true ->
            exposed constants h calls (fst c) = exposed constants h calls (snd c).

(** A call between two cells that are both vulnerable in heap [h]. *)
Definition vulnerable_pair (constants : Constants) (h : Heap) (c : call) : bool :=
  is_vulnerable constants (h (fst c)) && is_vulnerable constants (h (snd c)).

(** The real number that a finite binary64 float denotes. *)
Definition float_value (f : PrimFloat.float) : R :=
  match Prim2SF f with
  | S754_finite s m e => ((if s then -1 else 1) * IZR (Zpos m) * powerRZ 2 e)%R
  | _ => 0%R
  end.

(** Two binary64 numbers, printed [14.667144546119872] and
    [3.142430725286732] by Python, as the kernel's floats and as the reals
    they denote (mantissa times a power of two). The point they form lies
    within [1.2e-14] of the circle of radius 15 around the origin, inside
    it. *)
Definition graze_x_float : PrimFloat.float := 0x1.d5593f84e9448p+3%float.
Definition graze_y_float : PrimFloat.float := 0x1.923b2b8586aa6p+1%float.

Definition graze_x : R := (8256868339061832 / 2 ^ 49)%R.
Definition graze_y : R := (7076124921719462 / 2 ^ 51)%R.

(** The squares of these two numbers rounded to binary64. *)
Definition graze_x_squared : R := (7569042589206287 / 2 ^ 45)%R.
Definition graze_y_squared : R := (5559058092494602 / 2 ^ 49)%R.

(** The distance from the origin to that point as [Point.distance] computes
    it in binary64, step by step, with the kernel's binary64 operations
    ([x ** 2] as the product [x * x]). *)
Definition graze_distance_float : PrimFloat.float :=
  let dx := PrimFloat.sub 0%float graze_x_float in
  let dy := PrimFloat.sub 0%float graze_y_float in
  PrimFloat.sqrt (PrimFloat.add (PrimFloat.mul dx dx) (PrimFloat.mul dy dy)).

(** The binary64 arithmetic on the operands of that computation, and the
    operations without rounding elsewhere: the two squares round to
    [graze_x_squared] and [graze_y_squared], from the origin to the point
    and back, whose sum rounds to 225, whose square root is 15; the
    differences from zero are exact. *)
Definition graze_arithmetic : Float64 := {|
  fadd := fun a b =>
    if Req_dec_T a graze_x_squared then
      if Req_dec_T b graze_y_squared then 225%R else (a + b)%R
    else (a + b)%R;
  fsub := Rminus;
  fmul := Rmult;
  fpow := fun a n =>
    if negb (n =? 2)%Z then (a ^ Z.to_nat n)%R
    else if Req_dec_T a (0 - graze_x)%R then graze_x_squared
    else if Req_dec_T a (0 - graze_y)%R then graze_y_squared
    else if Req_dec_T a (graze_x - 0)%R then graze_x_squared
    else if Req_dec_T a (graze_y - 0)%R then graze_y_squared
    else (a ^ Z.to_nat n)%R;
  fsqrt := sqrt;
  fsin := sin;
  fcos := cos;
  fpi := PI
|}.

(** A stream of draws that always returns one half. *)
Definition half_draws : Random := fun _ => (1 / 2)%R.

(** ** Notions used by the further properties *)

(** The squared length of a vector. *)
Definition norm2 (v : Point.t) : R :=
  (Point.x v ^ 2 + Point.y v ^ 2)%R.

(** A point whose x coordinate, or y coordinate, is inside the bounding
    box. *)
Definition within_x (constants : Constants) (p : Point.t) : Prop :=
  (MIN_X constants <= Point.x p <= MAX_X constants)%R.

Definition within_y (constants : Constants) (p : Point.t) : Prop :=
  (MIN_Y constants <= Point.y p <= MAX_Y constants)%R.

(** The loop of a driver: [n] successive calls of [Model.tick]. *)
Fixpoint run {fp : Float64} (constants : Constants) (n : nat) (m : Model.t) : Model.t :=
  match n with
  | O => m
  | S n' => run constants n' (Model.tick constants m)
  end.

(** What a cell can still cost before the simulation is over: the ticks an
    infected cell has left before it recovers, one more than a full
    infection for a vulnerable cell, nothing for any other cell. *)
Definition weight (constants : Constants) (s : Z) : Z :=
  if s >=? INFECTED constants then Z.max 1 (RECOVERY_PERIOD constants - s)
  else if s =? VULNERABLE constants then Z.of_nat (recovery_ticks constants) + 1
  else 0.

(** The sum of the weights over the population. *)
Definition potential (constants : Constants) (h : Heap) (pop : list ref) : Z :=
  fold_right (fun r acc => weight constants (sickness (h r)) + acc) 0 pop.

(** A model under construction whose cells were built in order from the
    draws: object [r] has reference [r], its place comes from draws [3 r]
    and [3 r + 1] and its direction from draw [3 r + 2]; the cursor stands
    after the last draw used. *)
Definition laid_out {fp : Float64} (constants : Constants) (speed : R) (draws : Random)
    (self : Model.t) (n : nat) : Prop :=
  population self = seq 0 (length (population self)) /\
  n = (3 * length (population self))%nat /\
  time self = 0 /\
  forall r, (r < length (population self))%nat ->
    location (heap self r) = fst (random_location constants draws (3 * r)) /\
    direction (heap self r) = fst (random_direction speed draws (3 * r + 2)).

(** What [Model.tick] does to one cell before the contacts: [cell.tick()],
    then [enforce_bounds(cell)]. *)
Definition moved {fp : Float64} (constants : Constants) (c : Cell.t) : Cell.t :=
  enforce_bounds constants (Cell.tick constants c).

(** The first loop of [Model.tick], over the population. *)
Definition move_all {fp : Float64} (constants : Constants) (pop : list ref) (h : Heap) : Heap :=
  fold_left (fun h cell => upd h cell (moved constants (h cell))) pop h.

(** * Properties *)

(** ** Boolean tests on integers *)

Ltac zbool :=
  repeat match goal with
  | H : _ |- _ => rewrite Z.geb_leb in H
  | |- _ => rewrite Z.geb_leb
  end;
  repeat match goal with
  | H : (_ || _)%bool = true |- _ => apply orb_true_iff in H
  | H : (_ || _)%bool = false |- _ => apply orb_false_iff in H; destruct H
  | H : (_ && _)%bool = true |- _ => apply andb_true_iff in H; destruct H
  | H : (_ && _)%bool = false |- _ => apply andb_false_iff in H
  | H : (_ <=? _) = true |- _ => apply Z.leb_le in H
  | H : (_ <=? _) = false |- _ => apply Z.leb_gt in H
  | H : (_ <? _) = true |- _ => apply Z.ltb_lt in H
  | H : (_ <? _) = false |- _ => apply Z.ltb_ge in H
  | H : (_ =? _) = true |- _ => apply Z.eqb_eq in H
  | H : (_ =? _) = false |- _ => apply Z.eqb_neq in H
  end.

Lemma is_infected_true k c :
  is_infected k c = true <-> INFECTED k <= sickness c.
Proof.
  unfold is_infected. rewrite Z.geb_leb. apply Z.leb_le.
Qed.

Lemma is_infected_false k c :
  is_infected k c = false <-> sickness c < INFECTED k.
Proof.
  unfold is_infected. rewrite Z.geb_leb. apply Z.leb_gt.
Qed.

Lemma is_vulnerable_true k c :
  is_vulnerable k c = true <-> sickness c = VULNERABLE k.
Proof. apply Z.eqb_eq. Qed.

Lemma is_immune_true k c :
  is_immune k c = true <-> sickness c = IMMUNE k.
Proof. apply Z.eqb_eq. Qed.

(** ** Counting *)

Lemma count_app q l1 l2 : count q (l1 ++ l2) = count q l1 + count q l2.
Proof.
  unfold count. rewrite filter_app, length_app. lia.
Qed.

Lemma count_all q l :
  (forall c, In c l -> q c = true) -> count q l = Z.of_nat (length l).
Proof.
  unfold count. induction l as [|c l IH]; intros H; simpl; [reflexivity|].
  rewrite (H c (or_introl eq_refl)). simpl.
  f_equal. f_equal. apply Nat2Z.inj. apply IH. intros; apply H; now right.
Qed.

Lemma count_none q l :
  (forall c, In c l -> q c = false) -> count q l = 0.
Proof.
  unfold count. induction l as [|c l IH]; intros H; simpl; [reflexivity|].
  rewrite (H c (or_introl eq_refl)). apply IH. intros; apply H; now right.
Qed.

(** ** [Model.is_complete] *)

Lemma is_complete_from_true k h l :
  is_complete_from k h l = true <->
  forall r, In r l -> sickness (h r) < INFECTED k.
Proof.
  induction l as [|a l IH]; simpl.
  - split; [intros _ r []|reflexivity].
  - destruct (is_infected k (h a)) eqn:E.
    + apply is_infected_true in E. split; [discriminate|].
      intros H. specialize (H a (or_introl eq_refl)). lia.
    + apply is_infected_false in E. rewrite IH. split.
      * intros H r [<-|Hr]; auto.
      * intros H r Hr. apply H. now right.
Qed.

(** C1, amended. [is_complete] answers true exactly when every cell of the
    population has a sickness below [INFECTED]; so it answers false whenever
    a cell lies in the window [INFECTED <= sickness < IMMUNE], and a
    population of vulnerable and immune cells only is complete when both
    markers are below [INFECTED]. *)
Theorem is_complete_iff_all_below_infected :
  forall (k : Constants) (m : Model.t),
    (is_complete k m = true <->
     forall r, In r (population m) -> sickness (heap m r) < INFECTED k) /\
    (forall r, In r (population m) -> in_window k (heap m r) ->
               is_complete k m = false) /\
    (VULNERABLE k < INFECTED k -> IMMUNE k < INFECTED k ->
     (forall r, In r (population m) ->
                is_vulnerable k (heap m r) || is_immune k (heap m r) = true) ->
     is_complete k m = true).
Proof.
  intros k m. unfold is_complete. repeat split.
  - apply is_complete_from_true.
  - apply is_complete_from_true.
  - intros r Hr [Hlo _].
    destruct (is_complete_from k (heap m) (population m)) eqn:E; [|reflexivity].
    rewrite is_complete_from_true in E. specialize (E r Hr). lia.
  - intros HV HI H. apply is_complete_from_true. intros r Hr.
    specialize (H r Hr). apply orb_true_iff in H.
    destruct H as [H|H]; [apply is_vulnerable_true in H|apply is_immune_true in H]; lia.
Qed.

(** The amended C1 on a population of one vulnerable and one immune cell,
    with [IMMUNE = -1] below [INFECTED = 1]: complete. *)
Lemma is_complete_iff_all_below_infected_witness :
  let k := sample_constants (-1) 90 in
  let m := Model.mk (heap_of [cell_with 0; cell_with (-1)]) [0; 1]%nat 3 in
  VULNERABLE k < INFECTED k /\ IMMUNE k < INFECTED k /\
  is_complete k m = true.
Proof.
  cbv zeta.
  assert (H1 : VULNERABLE (sample_constants (-1) 90)
               < INFECTED (sample_constants (-1) 90)) by (simpl; lia).
  assert (H2 : IMMUNE (sample_constants (-1) 90)
               < INFECTED (sample_constants (-1) 90)) by (simpl; lia).
  split; [exact H1|]. split; [exact H2|].
  apply (proj2 (proj2 (is_complete_iff_all_below_infected
                         (sample_constants (-1) 90)
                         (Model.mk (heap_of [cell_with 0; cell_with (-1)])
                                   [0; 1]%nat 3))) H1 H2).
  intros r [<-|[<-|[]]]; reflexivity.
Defined.

(** C1 as stated fails. With [INFECTED = 1 < IMMUNE = 2], a population of one
    vulnerable and one immune cell has no cell in the window, yet
    [is_complete] is false: the immune cell passes [sickness >= INFECTED].
    With [IMMUNE = -1 < INFECTED = 1] the window is empty, and a population
    with a freshly infected cell is not complete either. *)
Lemma is_complete_window_counterexample :
  (let k := sample_constants 2 5 in
   let m := Model.mk (heap_of [cell_with 0; cell_with 2]) [0; 1]%nat 7 in
   (forall r, In r (population m) ->
              is_vulnerable k (heap m r) || is_immune k (heap m r) = true) /\
   (forall r, In r (population m) -> ~ in_window k (heap m r)) /\
   is_complete k m = false) /\
  (let k := sample_constants (-1) 5 in
   let m := Model.mk (heap_of [cell_with 0; cell_with 1]) [0; 1]%nat 0 in
   (forall r, In r (population m) -> ~ in_window k (heap m r)) /\
   is_complete k m = false).
Proof.
  split; cbv zeta.
  - repeat split.
    + intros r [<-|[<-|[]]]; reflexivity.
    + intros r [<-|[<-|[]]]; unfold in_window; simpl; lia.
  - split; [|reflexivity].
    intros r [<-|[<-|[]]]; unfold in_window; simpl; lia.
Qed.

(** ** [Model.__init__] *)

(** C2. The constructor raises exactly when the arguments violate
    [0 < start_infected < cells], [0 <= start_immune < cells] or
    [start_infected + start_immune < cells]; when it raises, the object is
    still blank (empty population, no cell written) and no random number has
    been drawn; on valid arguments it returns normally. *)
Theorem init_raises_iff_invalid {fp : Float64} :
  forall (k : Constants) (cells : Z) (speed : R)
         (start_infected start_immune : Z) (draws : Random),
    let res := Model.init k cells speed start_infected start_immune draws in
    ((exists e, fst (fst res) = Raise e) <->
     ~ valid_arguments cells start_infected start_immune) /\
    ((exists e, fst (fst res) = Raise e) ->
     snd (fst res) = blank k /\ population (snd (fst res)) = [] /\ snd res = 0%nat) /\
    (valid_arguments cells start_infected start_immune ->
     fst (fst res) = Done).
Proof.
  intros k cells speed si sm draws. unfold valid_arguments, Model.init.
  destruct ((si >=? cells) || (si <=? 0))%bool eqn:E1;
    [|destruct ((sm >=? cells) || (sm <? 0))%bool eqn:E2;
      [|destruct (sm + si >=? cells) eqn:E3]];
    cbn [fst snd]; zbool.
  - repeat split; eauto; try (intros; lia).
  - repeat split; eauto; try (intros; lia).
  - repeat split; eauto; try (intros; lia).
  - split; [split|split].
    + intros [e He]; discriminate.
    + intros Hbad; exfalso; apply Hbad; lia.
    + intros [e He]; discriminate.
    + reflexivity.
Qed.

(** C2 on [Model(10, 1.0, 1, 0)], which is built, and on
    [Model(10, 1.0, 0, 0)], which raises on a blank object. *)
Lemma init_raises_iff_invalid_witness :
  let fp := exact_arithmetic in
  let k := sample_constants (-1) 90 in
  valid_arguments 10 1 0 /\
  fst (fst (Model.init k 10 1 1 0 half_draws)) = Done /\
  (exists e, fst (fst (Model.init k 10 1 0 0 half_draws)) = Raise e) /\
  population (snd (fst (Model.init k 10 1 0 0 half_draws))) = [].
Proof.
  intros fp.
  cbv zeta.
  assert (Hv : valid_arguments 10 1 0) by (unfold valid_arguments; lia).
  assert (Hr : exists e, fst (fst (Model.init (sample_constants (-1) 90)
                                     10 1 0 0 half_draws)) = Raise e)
    by (eexists; reflexivity).
  split; [exact Hv|].
  split.
  - exact (proj2 (proj2 (init_raises_iff_invalid (sample_constants (-1) 90)
                           10 1 1 0 half_draws)) Hv).
  - split; [exact Hr|].
    exact (proj1 (proj2 (proj1 (proj2
             (init_raises_iff_invalid (sample_constants (-1) 90)
                10 1 0 0 half_draws)) Hr))).
Defined.

Lemma upd_same h r c : upd h r c r = c.
Proof. unfold upd. now rewrite Nat.eqb_refl. Qed.

Lemma upd_other h r c r' : r' <> r -> upd h r c r' = h r'.
Proof.
  intros Hne. unfold upd. destruct (Nat.eqb_spec r' r); congruence.
Qed.

Lemma map_upd_fresh h r c l :
  ~ In r l -> map (upd h r c) l = map h l.
Proof.
  intros Hr. apply map_ext_in. intros r' Hr'.
  apply upd_other. intros ->. contradiction.
Qed.

(** One construction loop appends [count] fresh cells, all with the sickness
    that [seed] leaves, and draws three random numbers per cell. *)
Lemma spawn_spec {fp : Float64} k count seed speed draws s :
  (forall loc dir, sickness (seed (Cell.init k loc dir)) = s) ->
  forall self n,
    population self = seq 0 (length (population self)) ->
    let st := spawn k count seed speed draws (self, n) in
    population (fst st) = seq 0 (length (population self) + count) /\
    map sickness (members (fst st)) = map sickness (members self) ++ repeat s count /\
    snd st = (n + 3 * count)%nat /\
    time (fst st) = time self.
Proof.
  intros Hseed. induction count as [|count IH]; intros self n Hpop.
  - cbn. rewrite Nat.add_0_r, app_nil_r. auto.
  - cbn [spawn random_location random_direction].
    set (cell := seed _).
    set (self1 := Model.mk _ _ _).
    assert (Hpop1 : population self1 = seq 0 (S (length (population self)))).
    { subst self1. cbn [population]. rewrite seq_S, Nat.add_0_l.
      now rewrite <- Hpop. }
    assert (Hlen1 : length (population self1) = S (length (population self))).
    { rewrite Hpop1. apply length_seq. }
    destruct (IH self1 (S (S (S n)))) as (P1 & P2 & P3 & P4).
    { now rewrite Hlen1. }
    cbv zeta. repeat split.
    + rewrite P1, Hlen1. f_equal. lia.
    + rewrite P2. unfold members. subst self1. cbn [heap population].
      rewrite !map_app. cbn [map]. rewrite upd_same.
      rewrite map_upd_fresh.
      * rewrite <- app_assoc. cbn. subst cell. now rewrite Hseed.
      * intros Hin. rewrite Hpop in Hin. apply in_seq in Hin.
        rewrite length_seq in Hin. lia.
    + rewrite P3. lia.
    + rewrite P4. reflexivity.
Qed.

Lemma count_by_sickness (p : Z -> bool) cs :
  count (fun c => p (sickness c)) cs =
  Z.of_nat (length (filter p (map sickness cs))).
Proof.
  unfold count. f_equal. induction cs as [|c cs IH]; simpl; [reflexivity|].
  destruct (p (sickness c)); simpl; now rewrite IH.
Qed.

Lemma filter_repeat (p : Z -> bool) s n :
  length (filter p (repeat s n)) = if p s then n else 0%nat.
Proof.
  induction n as [|n IH]; simpl.
  - now destruct (p s).
  - destruct (p s) eqn:E; simpl; rewrite IH; reflexivity.
Qed.

Lemma count_three_batches (p : Z -> bool) cs v i m a b c :
  map sickness cs = repeat v a ++ repeat i b ++ repeat m c ->
  count (fun x => p (sickness x)) cs =
  Z.of_nat ((if p v then a else 0) + (if p i then b else 0) + (if p m then c else 0)).
Proof.
  intros H. rewrite count_by_sickness, H, !filter_app, !length_app, !filter_repeat.
  f_equal. lia.
Qed.

(** The constructor's population on valid arguments: [cells] distinct
    objects, the vulnerable batch first, then the infected, then the immune. *)
Lemma init_population {fp : Float64} k cells speed si sm draws :
  valid_arguments cells si sm ->
  let m := snd (fst (Model.init k cells speed si sm draws)) in
  population m = seq 0 (Z.to_nat cells) /\
  map sickness (members m) =
    repeat (VULNERABLE k) (Z.to_nat (cells - si - sm)) ++
    repeat (INFECTED k) (Z.to_nat si) ++
    repeat (IMMUNE k) (Z.to_nat sm).
Proof.
  intros Hv. unfold valid_arguments in Hv. unfold Model.init.
  destruct ((si >=? cells) || (si <=? 0))%bool eqn:E1; [zbool; lia|].
  destruct ((sm >=? cells) || (sm <? 0))%bool eqn:E2; [zbool; lia|].
  destruct (sm + si >=? cells) eqn:E3; [zbool; lia|].
  clear E1 E2 E3. cbn [fst snd].
  set (st1 := spawn k (Z.to_nat (cells - si - sm)) _ speed draws _).
  set (st2 := spawn k (Z.to_nat si) _ speed draws st1).
  destruct (spawn_spec k (Z.to_nat (cells - si - sm)) (fun c => c) speed draws
              (VULNERABLE k) (fun _ _ => eq_refl) (blank k) 0%nat eq_refl)
    as (A1 & A2 & _ & _).
  fold st1 in A1, A2. cbn in A1, A2.
  destruct st1 as [m1 n1]. cbn [fst] in A1, A2.
  destruct (spawn_spec k (Z.to_nat si) (fun c => set_sickness c (INFECTED k))
              speed draws (INFECTED k) (fun _ _ => eq_refl) m1 n1)
    as (B1 & B2 & _ & _).
  { rewrite A1 at 1. now rewrite A1, length_seq. }
  fold st2 in B1, B2. rewrite A1, length_seq in B1.
  destruct st2 as [m2 n2]. cbn [fst] in B1, B2.
  destruct (spawn_spec k (Z.to_nat sm) (fun c => set_sickness c (IMMUNE k))
              speed draws (IMMUNE k) (fun _ _ => eq_refl) m2 n2)
    as (C1 & C2 & _ & _).
  { rewrite B1 at 1. now rewrite B1, length_seq. }
  rewrite B1, length_seq in C1. cbv zeta in C1, C2. split.
  - rewrite C1. f_equal. lia.
  - rewrite C2, B2, A2. now rewrite <- app_assoc.
Qed.

(** C3, amended. On valid arguments the population has exactly [cells]
    members, pairwise distinct objects: first [cells - start_infected -
    start_immune] cells with sickness [VULNERABLE], then [start_infected]
    with sickness [INFECTED], then [start_immune] with sickness [IMMUNE].
    Exactly [start_infected] of them pass [is_infected] when [VULNERABLE] and
    [IMMUNE] are below [INFECTED]; when [INFECTED <= IMMUNE] the immune cells
    pass it too and the count is [start_infected + start_immune]. The counts
    of [is_immune] and [is_vulnerable] are [start_immune] and the rest when
    the three markers are pairwise different. *)
Theorem init_population_composition {fp : Float64} :
  forall (k : Constants) (cells : Z) (speed : R)
         (start_infected start_immune : Z) (draws : Random),
    valid_arguments cells start_infected start_immune ->
    let m := snd (fst (Model.init k cells speed start_infected start_immune draws)) in
    Z.of_nat (length (population m)) = cells /\
    NoDup (population m) /\
    map sickness (members m) =
      repeat (VULNERABLE k) (Z.to_nat (cells - start_infected - start_immune)) ++
      repeat (INFECTED k) (Z.to_nat start_infected) ++
      repeat (IMMUNE k) (Z.to_nat start_immune) /\
    (VULNERABLE k < INFECTED k -> IMMUNE k < INFECTED k ->
     count (is_infected k) (members m) = start_infected) /\
    (VULNERABLE k < INFECTED k -> INFECTED k <= IMMUNE k ->
     count (is_infected k) (members m) = start_infected + start_immune) /\
    (VULNERABLE k <> IMMUNE k -> INFECTED k <> IMMUNE k ->
     count (is_immune k) (members m) = start_immune) /\
    (VULNERABLE k <> INFECTED k -> VULNERABLE k <> IMMUNE k ->
     count (is_vulnerable k) (members m) = cells - start_infected - start_immune).
Proof.
  intros k cells speed si sm draws Hv.
  destruct (init_population k cells speed si sm draws Hv) as [Hpop Hsick].
  cbv zeta. unfold valid_arguments in Hv.
  split; [rewrite Hpop, length_seq; lia|].
  split; [rewrite Hpop; apply seq_NoDup|].
  split; [exact Hsick|].
  repeat split; intros H1 H2.
  - change (is_infected k) with (fun c => (fun s => s >=? INFECTED k) (sickness c)).
    rewrite (count_three_batches _ _ _ _ _ _ _ _ Hsick).
    destruct (Z.geb_spec (VULNERABLE k) (INFECTED k)); [lia|].
    destruct (Z.geb_spec (INFECTED k) (INFECTED k)); [|lia].
    destruct (Z.geb_spec (IMMUNE k) (INFECTED k)); lia.
  - change (is_infected k) with (fun c => (fun s => s >=? INFECTED k) (sickness c)).
    rewrite (count_three_batches _ _ _ _ _ _ _ _ Hsick).
    destruct (Z.geb_spec (VULNERABLE k) (INFECTED k)); [lia|].
    destruct (Z.geb_spec (INFECTED k) (INFECTED k)); [|lia].
    destruct (Z.geb_spec (IMMUNE k) (INFECTED k)); lia.
  - change (is_immune k) with (fun c => (fun s => s =? IMMUNE k) (sickness c)).
    rewrite (count_three_batches _ _ _ _ _ _ _ _ Hsick).
    destruct (Z.eqb_spec (VULNERABLE k) (IMMUNE k)); [lia|].
    destruct (Z.eqb_spec (INFECTED k) (IMMUNE k)); [lia|].
    destruct (Z.eqb_spec (IMMUNE k) (IMMUNE k)); lia.
  - change (is_vulnerable k) with (fun c => (fun s => s =? VULNERABLE k) (sickness c)).
    rewrite (count_three_batches _ _ _ _ _ _ _ _ Hsick).
    destruct (Z.eqb_spec (VULNERABLE k) (VULNERABLE k)); [|lia].
    destruct (Z.eqb_spec (INFECTED k) (VULNERABLE k)); [lia|].
    destruct (Z.eqb_spec (IMMUNE k) (VULNERABLE k)); lia.
Qed.

(** The amended C3 at a configuration with [IMMUNE] below [INFECTED]:
    ten cells, two of them infected and three immune. *)
Lemma init_population_composition_witness :
  let fp := exact_arithmetic in
  valid_arguments 10 2 3 /\
  let m := snd (fst (Model.init (sample_constants (-1) 90) 10 1 2 3 half_draws)) in
  Z.of_nat (length (population m)) = 10 /\
  count (is_infected (sample_constants (-1) 90)) (members m) = 2.
Proof.
  intros fp.
  assert (Hv : valid_arguments 10 2 3) by (unfold valid_arguments; lia).
  split; [exact Hv|].
  pose proof (init_population_composition (sample_constants (-1) 90) 10 1 2 3
                half_draws Hv) as H.
  cbv zeta in H. destruct H as (H1 & _ & _ & H2 & _).
  split; [exact H1|]. apply H2; simpl; lia.
Defined.

(** C3 as stated fails under the relation [INFECTED < IMMUNE] that the spec
    requires of the configuration: [Model(3, 1.0, 1, 1)] is a valid
    construction and two of its cells pass [is_infected], not one. *)
Lemma init_infected_count_counterexample :
  let fp := exact_arithmetic in
  let k := sample_constants 2 5 in
  let res := Model.init k 3 1 1 1 half_draws in
  valid_arguments 3 1 1 /\
  INFECTED k < IMMUNE k /\
  fst (fst res) = Done /\
  count (is_infected k) (members (snd (fst res))) = 2 /\
  count (is_infected k) (members (snd (fst res))) <> 1.
Proof.
  intros fp.
  cbv zeta. repeat split; try (unfold valid_arguments; lia); try reflexivity.
  discriminate.
Qed.

(** ** [Cell.tick] *)

Lemma tick_sickness {fp : Float64} k c :
  sickness (Cell.tick k c) =
  if sickness c >=? INFECTED k then
    if sickness c + 1 >=? RECOVERY_PERIOD k then IMMUNE k else sickness c + 1
  else sickness c.
Proof.
  unfold Cell.tick, is_infected, immunize, set_sickness, set_location.
  cbn [sickness].
  destruct (sickness c >=? INFECTED k); [|reflexivity].
  destruct (sickness c + 1 >=? RECOVERY_PERIOD k); reflexivity.
Qed.

Lemma ticks_S {fp : Float64} k n c : ticks k (S n) c = Cell.tick k (ticks k n c).
Proof. reflexivity. Qed.

(** While a freshly infected cell has not recovered, its counter is
    [INFECTED] plus the number of ticks. *)
Lemma ticks_counting {fp : Float64} k c :
  sickness c = INFECTED k ->
  forall j, (j < recovery_ticks k)%nat ->
            sickness (ticks k j c) = INFECTED k + Z.of_nat j.
Proof.
  intros Hc. unfold recovery_ticks. induction j as [|j IH]; intros Hj.
  - cbn. lia.
  - rewrite ticks_S, tick_sickness, IH by lia.
    destruct (Z.geb_spec (INFECTED k + Z.of_nat j) (INFECTED k)); [|lia].
    destruct (Z.geb_spec (INFECTED k + Z.of_nat j + 1) (RECOVERY_PERIOD k)); lia.
Qed.

(** C4, amended. A cell whose sickness has just been set to [INFECTED] has
    sickness [IMMUNE] after exactly [max 1 (RECOVERY_PERIOD - INFECTED)]
    ticks; before that its counter is [INFECTED + j] after [j] ticks, so it
    is not immune earlier unless [IMMUNE] is one of those counter values.
    For a positive [RECOVERY_PERIOD] the number of ticks is
    [RECOVERY_PERIOD] itself exactly when [INFECTED = 0], or
    [RECOVERY_PERIOD = 1] and [INFECTED >= 0]. *)
Theorem infected_cell_recovers_after_recovery_ticks {fp : Float64} :
  forall (k : Constants) (c : Cell.t),
    sickness c = INFECTED k ->
    is_immune k (ticks k (recovery_ticks k) c) = true /\
    (forall j, (j < recovery_ticks k)%nat ->
               sickness (ticks k j c) = INFECTED k + Z.of_nat j) /\
    (IMMUNE k < INFECTED k \/
     INFECTED k + Z.of_nat (recovery_ticks k) <= IMMUNE k ->
     forall j, (j < recovery_ticks k)%nat -> is_immune k (ticks k j c) = false) /\
    (0 < RECOVERY_PERIOD k ->
     (recovery_ticks k = Z.to_nat (RECOVERY_PERIOD k) <->
      INFECTED k = 0 \/ (RECOVERY_PERIOD k = 1 /\ 0 <= INFECTED k))).
Proof.
  intros k c Hc. pose proof (ticks_counting k c Hc) as Hcount.
  split; [|split; [|split]].
  - apply is_immune_true.
    assert (Hn : exists n, recovery_ticks k = S n).
    { unfold recovery_ticks. exists (Nat.pred (Z.to_nat (Z.max 1 (RECOVERY_PERIOD k - INFECTED k)))). lia. }
    destruct Hn as [n Hn]. rewrite Hn, ticks_S, tick_sickness, Hcount by lia.
    unfold recovery_ticks in Hn.
    destruct (Z.geb_spec (INFECTED k + Z.of_nat n) (INFECTED k)); [|lia].
    destruct (Z.geb_spec (INFECTED k + Z.of_nat n + 1) (RECOVERY_PERIOD k)); lia.
  - exact Hcount.
  - intros Hfree j Hj. unfold is_immune. rewrite Hcount by exact Hj.
    apply Z.eqb_neq. lia.
  - intros HR. unfold recovery_ticks. split; intros H; lia.
Qed.

(** The amended C4 with [INFECTED = 1], [IMMUNE = -1] and a recovery period
    of 90: immune after 89 ticks. *)
Lemma infected_cell_recovers_after_recovery_ticks_witness :
  let fp := exact_arithmetic in
  let k := sample_constants (-1) 90 in
  sickness (contract_disease k (cell_with 0)) = INFECTED k /\
  recovery_ticks k = 89%nat /\
  is_immune k (ticks k 89 (contract_disease k (cell_with 0))) = true.
Proof.
  intros fp.
  cbv zeta. split; [reflexivity|]. split; [reflexivity|].
  exact (proj1 (infected_cell_recovers_after_recovery_ticks
                  (sample_constants (-1) 90)
                  (contract_disease (sample_constants (-1) 90) (cell_with 0))
                  eq_refl)).
Defined.

(** C4 as stated fails. With [INFECTED = 1] and a recovery period of 90 the
    cell is immune after 89 ticks, a strictly smaller number than 90; this
    is so with [IMMUNE = -1] and with [IMMUNE = 100]. With
    [INFECTED = 1 < IMMUNE = 2] and a recovery period of 5 the cell is not
    immune after 5 ticks. *)
Lemma recovery_after_R_ticks_counterexample :
  let fp := exact_arithmetic in
  (let k := sample_constants (-1) 90 in
   let c := contract_disease k (cell_with 0) in
   0 < RECOVERY_PERIOD k /\ (89 < 90)%nat /\ is_immune k (ticks k 89 c) = true) /\
  (let k := sample_constants 100 90 in
   let c := contract_disease k (cell_with 0) in
   0 < RECOVERY_PERIOD k /\ (89 < 90)%nat /\ is_immune k (ticks k 89 c) = true) /\
  (let k := sample_constants 2 5 in
   let c := contract_disease k (cell_with 0) in
   0 < RECOVERY_PERIOD k /\ is_immune k (ticks k 5 c) = false).
Proof.
  intros fp.
  cbv zeta. repeat split; try lia; reflexivity.
Qed.

(** C5, amended. A tick lowers the sickness counter exactly when it performs
    the recovery transition from a counter above [IMMUNE]: the cell is
    infected, the incremented counter reaches [RECOVERY_PERIOD], and
    [IMMUNE] is below the counter. In every other case the counter after the
    tick is at least the counter before. So, when
    [RECOVERY_PERIOD <= IMMUNE + 1], the counter of a cell that starts at or
    below [IMMUNE] never decreases over any sequence of ticks, and stays at
    or below [IMMUNE]. *)
Theorem tick_sickness_decreases_only_at_recovery {fp : Float64} :
  forall (k : Constants) (c : Cell.t),
    (sickness (Cell.tick k c) < sickness c <->
     INFECTED k <= sickness c /\
     RECOVERY_PERIOD k <= sickness c + 1 /\
     IMMUNE k < sickness c) /\
    (RECOVERY_PERIOD k <= IMMUNE k + 1 -> sickness c <= IMMUNE k ->
     forall n, sickness (ticks k n c) <= sickness (ticks k (S n) c) /\
               sickness (ticks k (S n) c) <= IMMUNE k).
Proof.
  intros k c. split.
  - rewrite tick_sickness.
    destruct (Z.geb_spec (sickness c) (INFECTED k));
      [destruct (Z.geb_spec (sickness c + 1) (RECOVERY_PERIOD k))|]; lia.
  - intros HR Hc n.
    assert (Hinv : forall j, sickness (ticks k j c) <= IMMUNE k).
    { induction j as [|j IH]; [exact Hc|].
      rewrite ticks_S, tick_sickness.
      destruct (Z.geb_spec (sickness (ticks k j c)) (INFECTED k));
        [destruct (Z.geb_spec (sickness (ticks k j c) + 1) (RECOVERY_PERIOD k))|]; lia. }
    split; [|apply Hinv].
    specialize (Hinv n). rewrite ticks_S, tick_sickness.
    destruct (Z.geb_spec (sickness (ticks k n c)) (INFECTED k));
      [destruct (Z.geb_spec (sickness (ticks k n c) + 1) (RECOVERY_PERIOD k))|]; lia.
Qed.

(** C5 as stated fails: the recovery transition lowers the counter. With
    [IMMUNE = -1] and a recovery period of 90, a cell infected 88 ticks ago
    has counter 89 and the next tick sets it to -1. With
    [INFECTED = 1 < IMMUNE = 2] and a recovery period of 5, the counter goes
    from 4 to 2. *)
Lemma tick_lowers_sickness_counterexample :
  let fp := exact_arithmetic in
  (let k := sample_constants (-1) 90 in
   let c := ticks k 88 (contract_disease k (cell_with 0)) in
   sickness c = 89 /\ sickness (Cell.tick k c) = -1 /\
   ~ sickness c <= sickness (Cell.tick k c)) /\
  (let k := sample_constants 2 5 in
   let c := ticks k 3 (contract_disease k (cell_with 0)) in
   INFECTED k < IMMUNE k /\
   sickness c = 4 /\ sickness (Cell.tick k c) = 2 /\
   ~ sickness c <= sickness (Cell.tick k c)).
Proof.
  intros fp.
  cbv zeta. split.
  - split; [reflexivity|]. split; [reflexivity|].
    change (~ 89 <= -1). lia.
  - split; [simpl; lia|]. split; [reflexivity|]. split; [reflexivity|].
    change (~ 4 <= 2). lia.
Qed.

(** The amended C5 with [RECOVERY_PERIOD = 90 <= IMMUNE + 1 = 101]. *)
Lemma tick_sickness_decreases_only_at_recovery_witness :
  let fp := exact_arithmetic in
  let k := sample_constants 100 90 in
  let c := cell_with 1 in
  RECOVERY_PERIOD k <= IMMUNE k + 1 /\ sickness c <= IMMUNE k /\
  sickness (ticks k 89 c) <= sickness (ticks k 90 c).
Proof.
  intros fp.
  cbv zeta.
  assert (H1 : RECOVERY_PERIOD (sample_constants 100 90)
               <= IMMUNE (sample_constants 100 90) + 1) by (simpl; lia).
  assert (H2 : sickness (cell_with 1) <= IMMUNE (sample_constants 100 90))
    by (simpl; lia).
  split; [exact H1|]. split; [exact H2|].
  exact (proj1 (proj2 (tick_sickness_decreases_only_at_recovery
                         (sample_constants 100 90) (cell_with 1)) H1 H2 89%nat)).
Defined.

(** ** [Cell.contact_with] *)

Lemma contact_with_geometry k self other h r :
  location (contact_with k self other h r) = location (h r) /\
  direction (contact_with k self other h r) = direction (h r).
Proof.
  unfold contact_with.
  destruct (is_infected k (h self) && is_vulnerable k (h other))%bool.
  - unfold upd. destruct (Nat.eqb_spec r other) as [->|]; auto.
  - destruct (is_vulnerable k (h self) && is_infected k (h other))%bool; auto.
    unfold upd. destruct (Nat.eqb_spec r self) as [->|]; auto.
Qed.

(** A contact changes no sickness, or sets one vulnerable cell's sickness to
    [INFECTED]. *)
Lemma contact_with_sickness k self other h r :
  sickness (contact_with k self other h r) = sickness (h r) \/
  (sickness (h r) = VULNERABLE k /\
   sickness (contact_with k self other h r) = INFECTED k).
Proof.
  unfold contact_with.
  destruct (is_infected k (h self) && is_vulnerable k (h other))%bool eqn:E1.
  - apply andb_true_iff in E1. destruct E1 as [_ E1].
    apply is_vulnerable_true in E1.
    unfold upd. destruct (Nat.eqb_spec r other) as [->|]; auto.
  - destruct (is_vulnerable k (h self) && is_infected k (h other))%bool eqn:E2; auto.
    apply andb_true_iff in E2. destruct E2 as [E2 _].
    apply is_vulnerable_true in E2.
    unfold upd. destruct (Nat.eqb_spec r self) as [->|]; auto.
Qed.

(** C6, amended. [contact_with] follows its two guards: when self is
    infected and other vulnerable, other's sickness becomes [INFECTED] and no
    other cell changes; otherwise, when self is vulnerable and other
    infected, self's sickness becomes [INFECTED] and no other cell changes;
    when neither guard holds the heap is unchanged. Locations and directions
    never change. Contacts of two infected or of two vulnerable cells change
    nothing when [VULNERABLE < INFECTED]; a contact with an immune party
    changes nothing when [IMMUNE < INFECTED] and [IMMUNE <> VULNERABLE]. *)
Theorem contact_with_one_direction :
  forall (k : Constants) (self other : ref) (h : Heap),
    let h' := contact_with k self other h in
    (is_infected k (h self) = true -> is_vulnerable k (h other) = true ->
     sickness (h' other) = INFECTED k /\ forall r, r <> other -> h' r = h r) /\
    (~ (is_infected k (h self) = true /\ is_vulnerable k (h other) = true) ->
     is_vulnerable k (h self) = true -> is_infected k (h other) = true ->
     sickness (h' self) = INFECTED k /\ forall r, r <> self -> h' r = h r) /\
    (~ (is_infected k (h self) = true /\ is_vulnerable k (h other) = true) ->
     ~ (is_vulnerable k (h self) = true /\ is_infected k (h other) = true) ->
     forall r, h' r = h r) /\
    (forall r, location (h' r) = location (h r) /\
               direction (h' r) = direction (h r)) /\
    (VULNERABLE k < INFECTED k ->
     is_infected k (h self) = true -> is_infected k (h other) = true ->
     forall r, h' r = h r) /\
    (VULNERABLE k < INFECTED k ->
     is_vulnerable k (h self) = true -> is_vulnerable k (h other) = true ->
     forall r, h' r = h r) /\
    (IMMUNE k < INFECTED k -> IMMUNE k <> VULNERABLE k ->
     is_immune k (h self) = true \/ is_immune k (h other) = true ->
     forall r, h' r = h r).
Proof.
  intros k self other h h'. subst h'.
  assert (Hno : ~ (is_infected k (h self) = true /\ is_vulnerable k (h other) = true) ->
                ~ (is_vulnerable k (h self) = true /\ is_infected k (h other) = true) ->
                forall r, contact_with k self other h r = h r).
  { intros N1 N2 r. unfold contact_with.
    destruct (is_infected k (h self) && is_vulnerable k (h other))%bool eqn:E1.
    { apply andb_true_iff in E1. contradiction. }
    destruct (is_vulnerable k (h self) && is_infected k (h other))%bool eqn:E2.
    { apply andb_true_iff in E2. contradiction. }
    reflexivity. }
  split; [|split; [|split; [|split; [|split; [|split]]]]].
  - intros Hi Hv. unfold contact_with. rewrite Hi, Hv. cbn [andb].
    split; [now rewrite upd_same|]. intros r Hr. now apply upd_other.
  - intros N1 Hv Hi. unfold contact_with.
    destruct (is_infected k (h self) && is_vulnerable k (h other))%bool eqn:E1.
    { apply andb_true_iff in E1. contradiction. }
    rewrite Hv, Hi. cbn [andb].
    split; [now rewrite upd_same|]. intros r Hr. now apply upd_other.
  - exact Hno.
  - intros r. apply contact_with_geometry.
  - intros HVI H1 H2. apply Hno; intros [A B].
    + apply is_infected_true in H2. apply is_vulnerable_true in B. lia.
    + apply is_infected_true in H1. apply is_vulnerable_true in A. lia.
  - intros HVI H1 H2. apply Hno; intros [A B].
    + apply is_infected_true in A. apply is_vulnerable_true in H1. lia.
    + apply is_infected_true in B. apply is_vulnerable_true in H2. lia.
  - intros HI HV Him. apply Hno; intros [A B].
    + apply is_infected_true in A. apply is_vulnerable_true in B.
      destruct Him as [Him|Him]; apply is_immune_true in Him; lia.
    + apply is_infected_true in B. apply is_vulnerable_true in A.
      destruct Him as [Him|Him]; apply is_immune_true in Him; lia.
Qed.

(** The amended C6 on an infected self and a vulnerable other. *)
Lemma contact_with_one_direction_witness :
  let k := sample_constants (-1) 90 in
  let h := heap_of [cell_with 1; cell_with 0] in
  is_infected k (h 0%nat) = true /\ is_vulnerable k (h 1%nat) = true /\
  sickness (contact_with k 0%nat 1%nat h 1%nat) = INFECTED k.
Proof.
  cbv zeta. split; [reflexivity|]. split; [reflexivity|].
  exact (proj1 (proj1 (contact_with_one_direction (sample_constants (-1) 90)
                         0%nat 1%nat (heap_of [cell_with 1; cell_with 0]))
                      eq_refl eq_refl)).
Defined.

(** C6 as stated fails under the relation [INFECTED < IMMUNE] that the spec
    requires: an immune self passes [is_infected] and infects a vulnerable
    other, so a contact with an immune party does change a sickness. *)
Lemma immune_contact_counterexample :
  let k := sample_constants 2 5 in
  let h := heap_of [cell_with 2; cell_with 0] in
  INFECTED k < IMMUNE k /\
  is_immune k (h 0%nat) = true /\
  is_vulnerable k (h 1%nat) = true /\
  sickness (h 1%nat) = 0 /\
  sickness (contact_with k 0%nat 1%nat h 1%nat) = 1.
Proof.
  cbv zeta. repeat split.
Qed.

(** ** The contact pass *)

Lemma same_geometry_refl h : same_geometry h h.
Proof. intros r. auto. Qed.

Lemma same_geometry_contact k a b h0 h :
  same_geometry h0 h -> same_geometry h0 (contact_with k a b h).
Proof.
  intros H r. destruct (contact_with_geometry k a b h r) as [E1 E2].
  destruct (H r) as [F1 F2]. rewrite E1, E2. auto.
Qed.

Lemma near_same_geometry {fp : Float64} k h0 h a b :
  same_geometry h0 h -> near k h a b = near k h0 a b.
Proof.
  intros H. unfold near.
  now rewrite (proj1 (H a)), (proj1 (H b)).
Qed.

Lemma scan_cons {fp : Float64} k cell used other rest h log :
  scan k cell used (other :: rest) (h, log) =
  if eligible k h cell used other then
    scan k cell used rest (contact_with k cell other h, log ++ [(cell, other)])
  else scan k cell used rest (h, log).
Proof.
  cbn [scan fst snd]. unfold eligible.
  destruct (Nat.eqb cell other || existsb (Nat.eqb other) used)%bool;
    cbn [negb andb]; [reflexivity|].
  destruct (near k h cell other); reflexivity.
Qed.

Lemma eligible_same_geometry {fp : Float64} k h0 h cell used other :
  same_geometry h0 h ->
  eligible k h cell used other = eligible k h0 cell used other.
Proof.
  intros Hg. unfold eligible. now rewrite (near_same_geometry k h0 h _ _ Hg).
Qed.

Lemma scan_spec {fp : Float64} k h0 cell used rest :
  forall h log,
    same_geometry h0 h ->
    let calls := map (pair cell) (filter (eligible k h0 cell used) rest) in
    let st := scan k cell used rest (h, log) in
    same_geometry h0 (fst st) /\
    snd st = log ++ calls /\
    fst st = apply_contacts k calls h.
Proof.
  induction rest as [|other rest IH]; intros h log Hg; cbv zeta.
  - cbn. rewrite app_nil_r. auto.
  - rewrite scan_cons, (eligible_same_geometry k h0 h _ _ _ Hg).
    cbn [filter].
    destruct (eligible k h0 cell used other); [|apply IH, Hg].
    destruct (IH (contact_with k cell other h) (log ++ [(cell, other)])
                 (same_geometry_contact k cell other h0 h Hg)) as (A & B & C).
    split; [exact A|]. split.
    + rewrite B. cbn [map]. now rewrite <- app_assoc.
    + rewrite C. reflexivity.
Qed.

Lemma apply_contacts_app k l1 l2 h :
  apply_contacts k (l1 ++ l2) h = apply_contacts k l2 (apply_contacts k l1 h).
Proof. apply fold_left_app. Qed.

Lemma sweep_spec {fp : Float64} k h0 pop todo :
  forall used h log,
    same_geometry h0 h ->
    let calls := contacts_from k h0 used todo pop in
    let st := sweep k todo used pop (h, log) in
    same_geometry h0 (fst st) /\
    snd st = log ++ calls /\
    fst st = apply_contacts k calls h.
Proof.
  induction todo as [|cell todo IH]; intros used h log Hg; cbn [sweep contacts_from].
  - cbn. rewrite app_nil_r. auto.
  - destruct (scan_spec k h0 cell (used ++ [cell]) pop h log Hg) as (A & B & C).
    destruct (scan k cell (used ++ [cell]) pop (h, log)) as [h1 log1].
    cbn [fst snd] in A, B, C.
    destruct (IH (used ++ [cell]) h1 log1 A) as (A' & B' & C').
    cbv zeta. split; [exact A'|]. split.
    + rewrite B', B. now rewrite <- app_assoc.
    + rewrite C', C. now rewrite apply_contacts_app.
Qed.

(** The pass is the sequence of its logged calls. *)
Lemma check_contacts_log_spec {fp : Float64} k m :
  let calls := contacts_from k (heap m) [] (population m) (population m) in
  snd (check_contacts_log k m) = calls /\
  heap (check_contacts k m) = apply_contacts k calls (heap m) /\
  population (check_contacts k m) = population m /\
  time (check_contacts k m) = time m.
Proof.
  unfold check_contacts, check_contacts_log. cbn [fst snd heap population time].
  destruct (sweep_spec k (heap m) (population m) (population m) [] (heap m) []
              (same_geometry_refl _)) as (_ & B & C).
  cbv zeta. rewrite B, C. auto.
Qed.

(** ** Which pairs a pass contacts *)

Lemma existsb_eqb_In (r : ref) l : existsb (Nat.eqb r) l = true <-> In r l.
Proof.
  rewrite existsb_exists. split.
  - intros (r' & Hin & E). apply Nat.eqb_eq in E. now subst.
  - intros Hin. exists r. split; [exact Hin|apply Nat.eqb_refl].
Qed.

Lemma filter_nothing {A} (f : A -> bool) l :
  (forall a, In a l -> f a = false) -> filter f l = [].
Proof.
  induction l as [|a l IH]; intros H; cbn; [reflexivity|].
  rewrite (H a (or_introl eq_refl)). apply IH. intros; apply H; now right.
Qed.

Lemma NoDup_app_disjoint {A} (l1 l2 : list A) :
  NoDup (l1 ++ l2) -> forall a, In a l1 -> ~ In a l2.
Proof.
  induction l1 as [|b l1 IH]; cbn; intros Hnd a Ha; [contradiction|].
  apply NoDup_cons_iff in Hnd. destruct Hnd as [Hb Hnd].
  destruct Ha as [->|Ha]; [|now apply IH].
  intros Hin. apply Hb, in_or_app. now right.
Qed.

(** With distinct objects, the cells eligible from [cell] are the cells after
    it that are near. *)
Lemma eligible_after {fp : Float64} k h0 used cell later :
  NoDup (used ++ cell :: later) ->
  filter (eligible k h0 cell (used ++ [cell])) (used ++ cell :: later) =
  filter (near k h0 cell) later.
Proof.
  intros Hnd. rewrite filter_app. cbn [filter].
  rewrite (filter_nothing _ used).
  2:{ intros a Ha. unfold eligible.
      replace (existsb (Nat.eqb a) (used ++ [cell])) with true.
      - now rewrite orb_true_r.
      - symmetry. apply existsb_eqb_In, in_or_app. now left. }
  unfold eligible at 1. rewrite Nat.eqb_refl. cbn [orb negb andb app].
  apply filter_ext_in. intros a Ha. unfold eligible.
  pose proof (NoDup_app_disjoint _ _ Hnd) as Hdisj.
  apply NoDup_app_remove_l, NoDup_cons_iff in Hnd. destruct Hnd as [Hcell _].
  assert (Hne : cell <> a) by (intros ->; contradiction).
  assert (Hnot : existsb (Nat.eqb a) (used ++ [cell]) = false).
  { destruct (existsb (Nat.eqb a) (used ++ [cell])) eqn:E; [|reflexivity].
    apply existsb_eqb_In, in_app_or in E. destruct E as [E|[E|[]]].
    - exfalso. apply (Hdisj a E). now right.
    - congruence. }
  apply Nat.eqb_neq in Hne. now rewrite Hne, Hnot.
Qed.

Lemma contacts_from_pairs_in_order {fp : Float64} k h0 todo :
  forall used,
    NoDup (used ++ todo) ->
    contacts_from k h0 used todo (used ++ todo) =
    pairs_in_order (near k h0) todo.
Proof.
  induction todo as [|cell later IH]; intros used Hnd; cbn [contacts_from pairs_in_order].
  - reflexivity.
  - rewrite (eligible_after k h0 used cell later Hnd). f_equal.
    replace (used ++ cell :: later) with ((used ++ [cell]) ++ later) in *
      by (now rewrite <- app_assoc).
    now apply IH.
Qed.

(** With distinct objects in the population, the calls of a pass are: every
    cell with each later cell that is near, in population order. *)
Lemma check_contacts_log_pairs {fp : Float64} k m :
  NoDup (population m) ->
  snd (check_contacts_log k m) = pairs_in_order (near k (heap m)) (population m).
Proof.
  intros Hnd. destruct (check_contacts_log_spec k m) as (E & _). rewrite E.
  apply (contacts_from_pairs_in_order k (heap m) (population m) [] Hnd).
Qed.

(** *** Counting the calls of a pair *)

Lemma times_contacted_app a b l1 l2 :
  times_contacted a b (l1 ++ l2) =
  (times_contacted a b l1 + times_contacted a b l2)%nat.
Proof. unfold times_contacted. now rewrite filter_app, length_app. Qed.

Lemma times_contacted_from a b l :
  a <> b ->
  times_contacted a b (map (pair a) l) = length (filter (Nat.eqb b) l).
Proof.
  intros Hne. unfold times_contacted.
  induction l as [|p l IH]; cbn [map filter]; [reflexivity|].
  unfold same_pair at 1. cbn [fst snd]. rewrite Nat.eqb_refl.
  replace (Nat.eqb b a) with false
    by (symmetry; apply Nat.eqb_neq; congruence).
  cbn [andb orb]. rewrite orb_false_r.
  destruct (Nat.eqb b p); cbn [length]; now rewrite IH.
Qed.

Lemma times_contacted_sym a b l :
  times_contacted a b l = times_contacted b a l.
Proof.
  unfold times_contacted. f_equal. apply filter_ext. intros c.
  unfold same_pair. apply orb_comm.
Qed.

Lemma times_contacted_stranger a b c l :
  c <> a -> c <> b -> times_contacted a b (map (pair c) l) = 0%nat.
Proof.
  intros Ha Hb. unfold times_contacted.
  rewrite filter_nothing; [reflexivity|].
  intros x Hx. apply in_map_iff in Hx. destruct Hx as (p & <- & _).
  unfold same_pair. cbn [fst snd].
  replace (Nat.eqb a c) with false by (symmetry; apply Nat.eqb_neq; congruence).
  replace (Nat.eqb b c) with false by (symmetry; apply Nat.eqb_neq; congruence).
  reflexivity.
Qed.

Lemma pairs_in_order_members test l c :
  In c (pairs_in_order test l) ->
  In (fst c) l /\ In (snd c) l /\ test (fst c) (snd c) = true.
Proof.
  induction l as [|cell later IH]; cbn [pairs_in_order]; [intros []|].
  intros Hin. apply in_app_or in Hin. destruct Hin as [Hin|Hin].
  - apply in_map_iff in Hin. destruct Hin as (p & <- & Hp).
    apply filter_In in Hp. cbn. tauto.
  - destruct (IH Hin) as (A & B & C). cbn. tauto.
Qed.

Lemma pairs_in_order_distinct test l c :
  NoDup l -> In c (pairs_in_order test l) -> fst c <> snd c.
Proof.
  induction l as [|cell later IH]; cbn [pairs_in_order]; [intros _ []|].
  intros Hnd Hin. apply NoDup_cons_iff in Hnd. destruct Hnd as [Hcell Hnd].
  apply in_app_or in Hin. destruct Hin as [Hin|Hin]; [|now apply IH].
  apply in_map_iff in Hin. destruct Hin as (p & <- & Hp).
  apply filter_In in Hp. cbn. intros ->. tauto.
Qed.

Lemma times_contacted_absent test a b l :
  ~ In a l -> times_contacted a b (pairs_in_order test l) = 0%nat.
Proof.
  intros Ha. unfold times_contacted. rewrite filter_nothing; [reflexivity|].
  intros c Hc. apply pairs_in_order_members in Hc. destruct Hc as (A & B & _).
  unfold same_pair.
  destruct (Nat.eqb_spec a (fst c)) as [->|]; [contradiction|].
  destruct (Nat.eqb_spec a (snd c)) as [->|]; [contradiction|].
  cbn. now rewrite andb_false_r.
Qed.

Lemma occurrences_NoDup (b : ref) l :
  NoDup l ->
  length (filter (Nat.eqb b) l) = if existsb (Nat.eqb b) l then 1%nat else 0%nat.
Proof.
  induction 1 as [|x l Hx Hnd IH]; cbn [filter existsb]; [reflexivity|].
  destruct (Nat.eqb_spec b x) as [->|Hne]; cbn [orb length].
  - rewrite filter_nothing; [reflexivity|].
    intros y Hy. apply Nat.eqb_neq. intros ->. contradiction.
  - exact IH.
Qed.

Lemma occurrences_filter (b : ref) (f : ref -> bool) l :
  length (filter (Nat.eqb b) (filter f l)) =
  if f b then length (filter (Nat.eqb b) l) else 0%nat.
Proof.
  induction l as [|x l IH]; cbn [filter]; [now destruct (f b)|].
  destruct (f x) eqn:Ex; cbn [filter].
  - destruct (Nat.eqb_spec b x) as [->|Hne]; cbn [length]; rewrite IH.
    + now rewrite Ex.
    + reflexivity.
  - rewrite IH. destruct (Nat.eqb_spec b x) as [->|Hne].
    + now rewrite Ex.
    + reflexivity.
Qed.

(** In the ordered pairs of a list without duplicates, an unordered pair of
    different elements occurs once when its test passes, and does not occur
    otherwise. *)
Lemma times_contacted_pairs_in_order test a b l :
  NoDup l -> a <> b ->
  times_contacted a b (pairs_in_order test l) =
  if pair_test test a b l then 1%nat else 0%nat.
Proof.
  intros Hnd Hne. induction Hnd as [|c later Hc Hnd IH];
    cbn [pairs_in_order pair_test]; [reflexivity|].
  rewrite times_contacted_app.
  destruct (Nat.eqb_spec c a) as [->|Hac]; [|destruct (Nat.eqb_spec c b) as [->|Hbc]].
  - rewrite (times_contacted_absent test a b later Hc), Nat.add_0_r.
    rewrite times_contacted_from by exact Hne.
    rewrite occurrences_filter, (occurrences_NoDup b later Hnd).
    destruct (test a b), (existsb (Nat.eqb b) later); reflexivity.
  - rewrite (times_contacted_sym a b (pairs_in_order test later)).
    rewrite (times_contacted_absent test b a later Hc), Nat.add_0_r.
    rewrite times_contacted_sym, times_contacted_from by congruence.
    rewrite occurrences_filter, (occurrences_NoDup a later Hnd).
    destruct (test b a), (existsb (Nat.eqb a) later); reflexivity.
  - rewrite times_contacted_stranger by congruence. exact IH.
Qed.

Lemma pair_test_both test a b l :
  a <> b -> In a l -> In b l ->
  test a b = true -> test b a = true ->
  pair_test test a b l = true.
Proof.
  intros Hne Ha Hb Hab Hba. induction l as [|c later IH]; [destruct Ha|].
  cbn [pair_test].
  destruct (Nat.eqb_spec c a) as [->|Hac]; [|destruct (Nat.eqb_spec c b) as [->|Hbc]].
  - rewrite Hab, andb_true_r. apply existsb_eqb_In.
    destruct Hb as [Hb|Hb]; [congruence|exact Hb].
  - rewrite Hba, andb_true_r. apply existsb_eqb_In.
    destruct Ha as [Ha|Ha]; [congruence|exact Ha].
  - apply IH.
    + destruct Ha as [Ha|Ha]; [congruence|exact Ha].
    + destruct Hb as [Hb|Hb]; [congruence|exact Hb].
Qed.

Lemma pair_test_neither test a b l :
  test a b = false -> test b a = false -> pair_test test a b l = false.
Proof.
  intros Hab Hba. induction l as [|c later IH]; [reflexivity|].
  cbn [pair_test]. rewrite Hab, Hba, !andb_false_r.
  destruct (Nat.eqb c a), (Nat.eqb c b); auto.
Qed.

(** *** The distance test *)

Lemma near_true {fp : Float64} k h a b :
  near k h a b = true <->
  (Point.distance (location (h a)) (location (h b)) < CELL_RADIUS k)%R.
Proof.
  unfold near, Rltb. destruct (Rlt_dec _ _); split; auto; discriminate.
Qed.

Lemma near_false {fp : Float64} k h a b :
  near k h a b = false <->
  (CELL_RADIUS k <= Point.distance (location (h a)) (location (h b)))%R.
Proof.
  unfold near, Rltb. destruct (Rlt_dec _ _); split; auto; try discriminate; lra.
Qed.

(** *** What a sequence of contacts can change *)

Lemma contact_with_elsewhere k a b h r :
  r <> a -> r <> b -> contact_with k a b h r = h r.
Proof.
  intros Ha Hb. unfold contact_with.
  destruct (is_infected k (h a) && is_vulnerable k (h b))%bool;
    [now apply upd_other|].
  destruct (is_vulnerable k (h a) && is_infected k (h b))%bool;
    [now apply upd_other|reflexivity].
Qed.

Lemma apply_contacts_geometry k calls :
  forall h, same_geometry h (apply_contacts k calls h).
Proof.
  induction calls as [|c calls IH]; intros h; cbn.
  - apply same_geometry_refl.
  - intros r. destruct (IH (contact_with k (fst c) (snd c) h) r) as [A B].
    destruct (contact_with_geometry k (fst c) (snd c) h r) as [A' B'].
    unfold apply_contacts in A, B. rewrite A, B. auto.
Qed.

Lemma apply_contacts_sickness k calls :
  forall h r,
    sickness (apply_contacts k calls h r) = sickness (h r) \/
    (sickness (h r) = VULNERABLE k /\
     sickness (apply_contacts k calls h r) = INFECTED k).
Proof.
  induction calls as [|c calls IH]; intros h r; cbn; [now left|].
  fold (apply_contacts k calls (contact_with k (fst c) (snd c) h)).
  destruct (IH (contact_with k (fst c) (snd c) h) r) as [E|[E1 E2]];
    destruct (contact_with_sickness k (fst c) (snd c) h r) as [F|[F1 F2]].
  - left. congruence.
  - right. split; congruence.
  - right. split; congruence.
  - right. split; congruence.
Qed.

Lemma apply_contacts_elsewhere k calls :
  forall h r,
    (forall c, In c calls -> fst c <> r /\ snd c <> r) ->
    apply_contacts k calls h r = h r.
Proof.
  induction calls as [|c calls IH]; intros h r H; cbn; [reflexivity|].
  fold (apply_contacts k calls (contact_with k (fst c) (snd c) h)).
  rewrite IH by (intros c' Hc'; apply H; now right).
  destruct (H c (or_introl eq_refl)) as [A B].
  apply contact_with_elsewhere; congruence.
Qed.

Lemma contacts_from_members {fp : Float64} k h0 pop todo :
  forall used c,
    In c (contacts_from k h0 used todo pop) -> In (fst c) todo /\ In (snd c) pop.
Proof.
  induction todo as [|cell todo IH]; intros used c; cbn [contacts_from]; [intros []|].
  intros Hin. apply in_app_or in Hin. destruct Hin as [Hin|Hin].
  - apply in_map_iff in Hin. destruct Hin as (p & <- & Hp).
    apply filter_In in Hp. cbn. tauto.
  - destruct (IH _ _ Hin). cbn. tauto.
Qed.

(** A tick keeps the population list, so the population of every model
    reached from a constructed one consists of distinct objects. *)
Lemma tick_population {fp : Float64} k m : population (Model.tick k m) = population m.
Proof.
  unfold Model.tick.
  set (m1 := Model.mk _ _ _).
  destruct (check_contacts_log_spec k m1) as (_ & _ & Hp & _).
  rewrite Hp. reflexivity.
Qed.

(** C7. When the population consists of distinct objects, as every
    constructed population does, a pass of [check_contacts] calls
    [contact_with] exactly once for every unordered pair of different
    population members whose distance, as [Point.distance] computes it from
    either cell to the other, is strictly below [CELL_RADIUS]; never for a
    pair whose computed distance is [CELL_RADIUS] or more; never twice for
    the same unordered pair; and only between different members of the
    population whose computed distance is below [CELL_RADIUS]. The heap
    after the pass is the result of these calls in order. This holds however
    the floating-point operations round. *)
Theorem check_contacts_contacts_each_near_pair_once {fp : Float64} :
  forall (k : Constants) (m : Model.t),
    NoDup (population m) ->
    let log := snd (check_contacts_log k m) in
    let dist a b := Point.distance (location (heap m a)) (location (heap m b)) in
    (forall a b, In a (population m) -> In b (population m) -> a <> b ->
                 (dist a b < CELL_RADIUS k)%R -> (dist b a < CELL_RADIUS k)%R ->
                 times_contacted a b log = 1%nat) /\
    (forall a b, (CELL_RADIUS k <= dist a b)%R -> (CELL_RADIUS k <= dist b a)%R ->
                 times_contacted a b log = 0%nat) /\
    (forall a b, (times_contacted a b log <= 1)%nat) /\
    (forall c, In c log ->
               In (fst c) (population m) /\ In (snd c) (population m) /\
               fst c <> snd c /\
               (dist (fst c) (snd c) < CELL_RADIUS k)%R) /\
    heap (check_contacts k m) = apply_contacts k log (heap m).
Proof.
  intros k m Hnd log dist.
  assert (Hlog : log = pairs_in_order (near k (heap m)) (population m))
    by (apply check_contacts_log_pairs, Hnd).
  assert (Hself : forall a, times_contacted a a log = 0%nat).
  { intros a. unfold times_contacted. rewrite filter_nothing; [reflexivity|].
    intros c Hc. rewrite Hlog in Hc.
    apply pairs_in_order_distinct in Hc; [|exact Hnd].
    unfold same_pair. rewrite orb_diag.
    destruct (Nat.eqb_spec a (fst c)) as [->|]; [|reflexivity].
    apply Nat.eqb_neq. congruence. }
  assert (Hcount : forall a b, a <> b ->
            times_contacted a b log =
            if pair_test (near k (heap m)) a b (population m)
            then 1%nat else 0%nat).
  { intros a b Hne. rewrite Hlog.
    now apply times_contacted_pairs_in_order. }
  split; [|split; [|split; [|split]]].
  - intros a b Ha Hb Hne Hab Hba. rewrite (Hcount a b Hne).
    apply near_true in Hab, Hba.
    now rewrite (pair_test_both _ a b _ Hne Ha Hb Hab Hba).
  - intros a b Hab Hba. destruct (Nat.eq_dec a b) as [->|Hne]; [apply Hself|].
    rewrite (Hcount a b Hne). apply near_false in Hab, Hba.
    now rewrite (pair_test_neither _ a b _ Hab Hba).
  - intros a b. destruct (Nat.eq_dec a b) as [->|Hne]; [rewrite Hself; lia|].
    rewrite (Hcount a b Hne). destruct (pair_test _ _ _ _); lia.
  - intros c Hc. rewrite Hlog in Hc.
    pose proof (pairs_in_order_distinct _ _ _ Hnd Hc).
    apply pairs_in_order_members in Hc. destruct Hc as (A & B & C).
    apply near_true in C. tauto.
  - destruct (check_contacts_log_spec k m) as (E & Hh & _).
    subst log. rewrite E. exact Hh.
Qed.

(** The kernel's binary64 operations give the steps of the example: the
    operands, the two rounded squares, their rounded sum 225, the distance
    15, and a false comparison with the radius 15. *)
Lemma graze_binary64_steps :
  let dx := PrimFloat.sub 0%float graze_x_float in
  let dy := PrimFloat.sub 0%float graze_y_float in
  float_value graze_x_float = graze_x /\
  float_value graze_y_float = graze_y /\
  float_value dx = (0 - graze_x)%R /\
  float_value dy = (0 - graze_y)%R /\
  float_value (PrimFloat.mul dx dx) = graze_x_squared /\
  float_value (PrimFloat.mul dy dy) = graze_y_squared /\
  float_value (PrimFloat.add (PrimFloat.mul dx dx) (PrimFloat.mul dy dy)) = 225%R /\
  float_value graze_distance_float = 15%R /\
  PrimFloat.ltb graze_distance_float 15%float = false.
Proof.
  cbv zeta. unfold float_value, graze_x, graze_y, graze_x_squared, graze_y_squared.
  repeat split;
    try (match goal with
         | |- context [Prim2SF ?f] =>
             let v := eval vm_compute in (Prim2SF f) in
             replace (Prim2SF f) with v by (vm_compute; reflexivity)
         end;
         cbn [powerRZ];
         match goal with
         | |- context [Pos.to_nat ?p] =>
             let n := eval vm_compute in (Pos.to_nat p) in
             change (Pos.to_nat p) with n
         end; lra).
Qed.

Lemma graze_distance_computed :
  Point.distance (fp := graze_arithmetic)
    (Point.mk 0 0) (Point.mk graze_x graze_y) = 15%R.
Proof.
  unfold Point.distance.
  cbn [Point.x Point.y fsub fpow fadd fsqrt graze_arithmetic Z.eqb Pos.eqb negb].
  assert (Hne : (0 - graze_y)%R <> (0 - graze_x)%R)
    by (unfold graze_x, graze_y; lra).
  destruct (Req_dec_T (0 - graze_x) (0 - graze_x)) as [_|N]; [|contradiction].
  destruct (Req_dec_T (0 - graze_y) (0 - graze_x)) as [E|_]; [contradiction|].
  destruct (Req_dec_T (0 - graze_y) (0 - graze_y)) as [_|N]; [|contradiction].
  destruct (Req_dec_T graze_x_squared graze_x_squared) as [_|N]; [|contradiction].
  destruct (Req_dec_T graze_y_squared graze_y_squared) as [_|N]; [|contradiction].
  replace 225%R with (15 ^ 2)%R by lra. apply sqrt_pow2. lra.
Qed.

Lemma graze_distance_computed_back :
  Point.distance (fp := graze_arithmetic)
    (Point.mk graze_x graze_y) (Point.mk 0 0) = 15%R.
Proof.
  unfold Point.distance.
  cbn [Point.x Point.y fsub fpow fadd fsqrt graze_arithmetic Z.eqb Pos.eqb negb].
  assert (Hx : (0 < graze_x)%R) by (unfold graze_x; lra).
  assert (Hy : (0 < graze_y)%R) by (unfold graze_y; lra).
  assert (Hne : (graze_y - 0)%R <> (graze_x - 0)%R)
    by (unfold graze_x, graze_y; lra).
  destruct (Req_dec_T (graze_x - 0) (0 - graze_x)) as [E|_]; [lra|].
  destruct (Req_dec_T (graze_x - 0) (0 - graze_y)) as [E|_]; [lra|].
  destruct (Req_dec_T (graze_x - 0) (graze_x - 0)) as [_|N]; [|contradiction].
  destruct (Req_dec_T (graze_y - 0) (0 - graze_x)) as [E|_]; [lra|].
  destruct (Req_dec_T (graze_y - 0) (0 - graze_y)) as [E|_]; [lra|].
  destruct (Req_dec_T (graze_y - 0) (graze_x - 0)) as [E|_]; [contradiction|].
  destruct (Req_dec_T (graze_y - 0) (graze_y - 0)) as [_|N]; [|contradiction].
  destruct (Req_dec_T graze_x_squared graze_x_squared) as [_|N]; [|contradiction].
  destruct (Req_dec_T graze_y_squared graze_y_squared) as [_|N]; [|contradiction].
  replace 225%R with (15 ^ 2)%R by lra. apply sqrt_pow2. lra.
Qed.

Lemma graze_distance_exact :
  (sqrt ((0 - graze_x) ^ 2 + (0 - graze_y) ^ 2) < 15)%R.
Proof.
  rewrite <- (sqrt_pow2 15) by lra. apply sqrt_lt_1_alt.
  split; [nra|].
  unfold graze_x, graze_y. lra.
Qed.

(** C7 as stated fails within one rounding of the radius. Two cells stand at
    the origin and at the binary64 point (14.667144546119872,
    3.142430725286732); their Euclidean distance is strictly below the
    radius 15, but the distance that [Point.distance] computes in binary64
    is exactly 15, from either cell to the other; the test [< CELL_RADIUS]
    fails and the pass makes no call for the pair: the first cell is
    infected, the second is vulnerable and stays so. *)
Lemma near_pair_not_contacted_counterexample :
  let fp := graze_arithmetic in
  let k := sample_constants (-1) 90 in
  let m := Model.mk (heap_of [cell_at 0 0 1; cell_at graze_x graze_y 0])
                    [0; 1]%nat 0 in
  NoDup (population m) /\
  In 0%nat (population m) /\ In 1%nat (population m) /\
  (sqrt ((0 - graze_x) ^ 2 + (0 - graze_y) ^ 2) < CELL_RADIUS k)%R /\
  is_infected k (heap m 0%nat) = true /\
  is_vulnerable k (heap m 1%nat) = true /\
  Point.distance (location (heap m 0%nat)) (location (heap m 1%nat)) = 15%R /\
  Point.distance (location (heap m 1%nat)) (location (heap m 0%nat)) = 15%R /\
  snd (check_contacts_log k m) = [] /\
  times_contacted 0%nat 1%nat (snd (check_contacts_log k m)) = 0%nat /\
  is_vulnerable k (heap (check_contacts k m) 1%nat) = true.
Proof.
  intros fp. cbv zeta.
  set (k := sample_constants (-1) 90).
  set (m := Model.mk (heap_of [cell_at 0 0 1; cell_at graze_x graze_y 0])
                     [0; 1]%nat 0).
  assert (Hnd : NoDup (population m))
    by (cbn; repeat constructor; cbn; intuition discriminate).
  assert (D : Point.distance (location (heap m 0%nat))
                (location (heap m 1%nat)) = 15%R)
    by exact graze_distance_computed.
  assert (N01 : near k (heap m) 0%nat 1%nat = false).
  { apply near_false. rewrite D. cbn. lra. }
  assert (L : snd (check_contacts_log k m) = []).
  { rewrite check_contacts_log_pairs by exact Hnd.
    cbn [pairs_in_order population heap filter m].
    change (near k (heap_of [cell_at 0 0 1; cell_at graze_x graze_y 0]) 0%nat 1%nat)
      with (near k (heap m) 0%nat 1%nat).
    rewrite N01. reflexivity. }
  split; [exact Hnd|]. split; [cbn; auto|]. split; [cbn; auto|].
  split; [exact graze_distance_exact|].
  split; [reflexivity|]. split; [reflexivity|].
  split; [exact D|]. split; [exact graze_distance_computed_back|].
  split; [exact L|]. split; [rewrite L; reflexivity|].
  destruct (check_contacts_log_spec k m) as (E & Hh & _).
  rewrite Hh, <- E, L. reflexivity.
Qed.

(** C7 on a constructed population of three cells. *)
Lemma check_contacts_contacts_each_near_pair_once_witness :
  let fp := exact_arithmetic in
  let k := sample_constants (-1) 90 in
  let m := snd (fst (Model.init k 3 1 1 0 half_draws)) in
  NoDup (population m) /\
  forall a b, (times_contacted a b (snd (check_contacts_log k m)) <= 1)%nat.
Proof.
  intros fp.
  cbv zeta.
  assert (Hnd : NoDup (population (snd (fst (Model.init (sample_constants (-1) 90)
                                                3 1 1 0 half_draws))))).
  { cbn. repeat constructor; cbn; intuition discriminate. }
  split; [exact Hnd|].
  exact (proj1 (proj2 (proj2
           (check_contacts_contacts_each_near_pair_once
              (sample_constants (-1) 90) _ Hnd)))).
Defined.

(** C10. A pass of [check_contacts] leaves the population list, its length
    and the tick counter as they were, and every cell's location and
    direction; a cell's sickness is unchanged or goes from [VULNERABLE] to
    [INFECTED], and cells outside the population are untouched. *)
Theorem check_contacts_changes_sickness_only {fp : Float64} :
  forall (k : Constants) (m : Model.t),
    let m' := check_contacts k m in
    population m' = population m /\
    length (population m') = length (population m) /\
    time m' = time m /\
    (forall r, location (heap m' r) = location (heap m r) /\
               direction (heap m' r) = direction (heap m r)) /\
    (forall r, sickness (heap m' r) = sickness (heap m r) \/
               (sickness (heap m r) = VULNERABLE k /\
                sickness (heap m' r) = INFECTED k)) /\
    (forall r, ~ In r (population m) -> heap m' r = heap m r).
Proof.
  intros k m. destruct (check_contacts_log_spec k m) as (_ & Hh & Hp & Ht).
  cbv zeta. rewrite Hp, Hh.
  split; [reflexivity|]. split; [reflexivity|]. split; [exact Ht|].
  split; [apply apply_contacts_geometry|].
  split; [intros r; apply apply_contacts_sickness|].
  intros r Hr. apply apply_contacts_elsewhere. intros c Hc.
  apply contacts_from_members in Hc. destruct Hc as [A B].
  split; intros E; rewrite E in *; contradiction.
Qed.

(** ** The order of the contacts *)

Lemma contact_with_sickness_eq k a b h r :
  sickness (contact_with k a b h r) =
  if is_infected k (h a) && is_vulnerable k (h b) then
    if Nat.eqb r b then INFECTED k else sickness (h r)
  else if is_vulnerable k (h a) && is_infected k (h b) then
    if Nat.eqb r a then INFECTED k else sickness (h r)
  else sickness (h r).
Proof.
  unfold contact_with, upd, contract_disease.
  destruct (is_infected k (h a) && is_vulnerable k (h b))%bool.
  - destruct (Nat.eqb r b); reflexivity.
  - destruct (is_vulnerable k (h a) && is_infected k (h b))%bool; [|reflexivity].
    destruct (Nat.eqb r a); reflexivity.
Qed.

Lemma apply_contacts_snoc k l c h :
  apply_contacts k (l ++ [c]) h =
  contact_with k (fst c) (snd c) (apply_contacts k l h).
Proof. now rewrite apply_contacts_app. Qed.

Lemma exposed_snoc k h l c r :
  exposed k h (l ++ [c]) r =
  (exposed k h l r || (is_vulnerable k (h r) && exposes k h r c))%bool.
Proof.
  unfold exposed. rewrite existsb_app. cbn [existsb]. rewrite orb_false_r.
  destruct (is_vulnerable k (h r)); reflexivity.
Qed.

(** Without a contact between two vulnerable cells, the outcome of a
    sequence of contacts has a closed form: the exposed cells end at
    [INFECTED], the others keep their sickness. *)
Lemma apply_contacts_closed_form k h l :
  VULNERABLE k < INFECTED k ->
  no_vulnerable_pair k h l ->
  forall r, sickness (apply_contacts k l h r) =
            if exposed k h l r then INFECTED k else sickness (h r).
Proof.
  intros HVI. induction l as [|[a b] l IH] using rev_ind; intros Hno r.
  - cbn. unfold exposed. cbn. now rewrite andb_false_r.
  - assert (Hno' : no_vulnerable_pair k h l).
    { intros c Hc. apply Hno, in_or_app. now left. }
    specialize (IH Hno').
    assert (Hab : (is_vulnerable k (h a) && is_vulnerable k (h b))%bool = false).
    { apply (Hno (a, b)), in_or_app. right. now left. }
    assert (E : forall x, exposed k h l x = true -> sickness (h x) = VULNERABLE k).
    { unfold exposed. intros x Hx. apply andb_true_iff in Hx.
      now apply is_vulnerable_true. }
    rewrite apply_contacts_snoc, contact_with_sickness_eq, exposed_snoc.
    cbn [fst snd]. unfold is_infected at 1 2, is_vulnerable at 1 2.
    rewrite !IH. unfold exposes. cbn [fst snd]. clear IH Hno Hno'.
    unfold is_vulnerable, is_infected in *.
    destruct (Nat.eqb r a) eqn:Hra; destruct (Nat.eqb r b) eqn:Hrb;
      repeat match goal with
      | H : Nat.eqb _ _ = true |- _ => apply Nat.eqb_eq in H; subst
      end;
      repeat match goal with
      | |- context [exposed k h l ?x] =>
          let X := fresh "X" in
          destruct (exposed k h l x) eqn:X; [apply E in X|clear X]
      end;
      clear E;
      repeat match goal with
      | |- context [?u >=? ?v] => destruct (Z.geb_spec u v)
      | |- context [?u =? ?v] => destruct (Z.eqb_spec u v)
      | H : context [?u =? ?v] |- _ => destruct (Z.eqb_spec u v)
      end;
      cbn [orb andb] in *;
      try reflexivity; try discriminate; lia.
Qed.

Lemma existsb_exposes k h r l :
  existsb (exposes k h r) l = true <->
  exists p, (In (r, p) l \/ In (p, r) l) /\ is_infected k (h p) = true.
Proof.
  rewrite existsb_exists. unfold exposes. split.
  - intros ([a b] & Hin & E). cbn [fst snd] in E.
    apply orb_true_iff in E. destruct E as [E|E];
      apply andb_true_iff in E; destruct E as [E1 E2];
      apply Nat.eqb_eq in E1; subst r.
    + exists b. auto.
    + exists a. auto.
  - intros (p & [Hin|Hin] & E).
    + exists (r, p). split; [exact Hin|]. cbn [fst snd].
      now rewrite Nat.eqb_refl, E.
    + exists (p, r). split; [exact Hin|]. cbn [fst snd].
      rewrite Nat.eqb_refl, E. now rewrite orb_true_r.
Qed.

Lemma exposed_same_pairs k h l1 l2 r :
  same_pairs l1 l2 -> exposed k h l1 r = exposed k h l2 r.
Proof.
  intros Hs. unfold exposed. f_equal. apply eq_true_iff_eq.
  rewrite !existsb_exposes. split; intros (p & Hin & E); exists p; split; auto.
  - now apply Hs.
  - now apply Hs.
Qed.

(** *** Deciding the distance test of the exact arithmetic on squares *)

Lemma sum_of_squares_nonneg (u v : R) : (0 <= u ^ 2 + v ^ 2)%R.
Proof.
  pose proof (pow2_ge_0 u). pose proof (pow2_ge_0 v). lra.
Qed.

Lemma distance_lt p q (r : R) :
  (0 <= r)%R ->
  ((Point.x p - Point.x q) ^ 2 + (Point.y p - Point.y q) ^ 2 < r ^ 2)%R ->
  (Point.distance (fp := exact_arithmetic) p q < r)%R.
Proof.
  intros Hr H. unfold Point.distance. cbn.
  rewrite <- (sqrt_pow2 r Hr). apply sqrt_lt_1_alt.
  split; [apply sum_of_squares_nonneg|exact H].
Qed.

Lemma distance_ge p q (r : R) :
  (0 <= r)%R ->
  (r ^ 2 <= (Point.x p - Point.x q) ^ 2 + (Point.y p - Point.y q) ^ 2)%R ->
  (r <= Point.distance (fp := exact_arithmetic) p q)%R.
Proof.
  intros Hr H. unfold Point.distance. cbn.
  rewrite <- (sqrt_pow2 r Hr) at 1. apply sqrt_le_1_alt. exact H.
Qed.

(** C8 as stated fails. Three cells stand on a line at x = 0, 10 and 20 with
    a contact radius of 15; the first is infected, the others vulnerable.
    The pairs within the radius are {0, 1} and {1, 2}. In the order of the
    code, (0, 1) then (1, 2), cell 1 is infected by cell 0 and then infects
    cell 2. In the order (1, 2) then (0, 1), cell 2 stays vulnerable. The
    pass itself gives these two outcomes on the populations [0; 1; 2] and
    [2; 1; 0]. *)
Lemma contact_order_counterexample :
  let fp := exact_arithmetic in
  let k := sample_constants (-1) 90 in
  let h := heap_of [cell_at 0 0 1; cell_at 10 0 0; cell_at 20 0 0] in
  let m := Model.mk h [0; 1; 2]%nat 0 in
  let m' := Model.mk h [2; 1; 0]%nat 0 in
  near k h 0%nat 1%nat = true /\
  near k h 1%nat 2%nat = true /\
  near k h 0%nat 2%nat = false /\
  snd (check_contacts_log k m) = [(0, 1); (1, 2)]%nat /\
  same_pairs [(0, 1); (1, 2)]%nat [(1, 2); (0, 1)]%nat /\
  sickness (apply_contacts k [(0, 1); (1, 2)]%nat h 2%nat) = 1 /\
  sickness (apply_contacts k [(1, 2); (0, 1)]%nat h 2%nat) = 0 /\
  sickness (heap (check_contacts k m) 2%nat) = 1 /\
  sickness (heap (check_contacts k m') 2%nat) = 0.
Proof.
  intros fp.
  cbv zeta.
  set (k := sample_constants (-1) 90).
  set (h := heap_of [cell_at 0 0 1; cell_at 10 0 0; cell_at 20 0 0]).
  assert (N01 : near k h 0%nat 1%nat = true).
  { apply near_true, distance_lt; cbn; lra. }
  assert (N12 : near k h 1%nat 2%nat = true).
  { apply near_true, distance_lt; cbn; lra. }
  assert (N02 : near k h 0%nat 2%nat = false).
  { apply near_false, distance_ge; cbn; lra. }
  assert (N10 : near k h 1%nat 0%nat = true).
  { apply near_true, distance_lt; cbn; lra. }
  assert (N21 : near k h 2%nat 1%nat = true).
  { apply near_true, distance_lt; cbn; lra. }
  assert (N20 : near k h 2%nat 0%nat = false).
  { apply near_false, distance_ge; cbn; lra. }
  assert (L : snd (check_contacts_log k (Model.mk h [0; 1; 2]%nat 0))
              = [(0, 1); (1, 2)]%nat).
  { rewrite check_contacts_log_pairs
      by (cbn; repeat constructor; cbn; intuition discriminate).
    cbn [pairs_in_order population heap filter].
    rewrite N01, N02, N12. reflexivity. }
  assert (L' : snd (check_contacts_log k (Model.mk h [2; 1; 0]%nat 0))
               = [(2, 1); (1, 0)]%nat).
  { rewrite check_contacts_log_pairs
      by (cbn; repeat constructor; cbn; intuition discriminate).
    cbn [pairs_in_order population heap filter].
    rewrite N21, N20, N10. reflexivity. }
  split; [exact N01|]. split; [exact N12|]. split; [exact N02|].
  split; [exact L|].
  split.
  { intros a b. cbn. tauto. }
  split; [reflexivity|]. split; [reflexivity|].
  split.
  - destruct (check_contacts_log_spec k (Model.mk h [0; 1; 2]%nat 0)) as (E & Hh & _).
    rewrite Hh, <- E, L. reflexivity.
  - destruct (check_contacts_log_spec k (Model.mk h [2; 1; 0]%nat 0)) as (E & Hh & _).
    rewrite Hh, <- E, L'. reflexivity.
Qed.

(** *** When the order of the contacts matters *)

Lemma apply_contacts_keeps_infected_value k l h r :
  VULNERABLE k < INFECTED k ->
  sickness (h r) = INFECTED k ->
  sickness (apply_contacts k l h r) = INFECTED k.
Proof.
  intros HVI Hr.
  destruct (apply_contacts_sickness k l h r) as [E|[E _]]; lia.
Qed.

Lemma apply_contacts_keeps_infected k l h r :
  is_infected k (h r) = true ->
  is_infected k (apply_contacts k l h r) = true.
Proof.
  intros Hr. apply is_infected_true in Hr. apply is_infected_true.
  destruct (apply_contacts_sickness k l h r) as [E|[_ E]]; lia.
Qed.

(** Whatever else happens in a sequence of contacts, a vulnerable cell that
    is contacted with an infected one ends at [INFECTED]. *)
Lemma apply_contacts_transmits k :
  VULNERABLE k < INFECTED k ->
  forall l h a b,
    In (a, b) l \/ In (b, a) l ->
    is_infected k (h a) = true -> is_vulnerable k (h b) = true ->
    sickness (apply_contacts k l h b) = INFECTED k.
Proof.
  intros HVI. induction l as [|c l IH]; intros h a b Hin Ha Hb.
  - destruct Hin as [[]|[]].
  - cbn. fold (apply_contacts k l (contact_with k (fst c) (snd c) h)).
    pose proof (contact_with_sickness_eq k (fst c) (snd c) h b) as Eb.
    pose proof Ha as Ha'. pose proof Hb as Hb'.
    apply is_infected_true in Ha'. apply is_vulnerable_true in Hb'.
    assert (Hnb : is_infected k (h b) = false) by (apply is_infected_false; lia).
    assert (Hna : is_vulnerable k (h a) = false)
      by (unfold is_vulnerable; apply Z.eqb_neq; lia).
    destruct Hin as [[->|Hin]|[->|Hin]].
    + cbn [fst snd] in *. rewrite Ha, Hb, Nat.eqb_refl in Eb. cbn [andb] in Eb.
      now apply apply_contacts_keeps_infected_value.
    + destruct (contact_with_sickness k (fst c) (snd c) h b) as [E|[_ E]].
      * apply (IH _ a b (or_introl Hin)).
        -- apply is_infected_true.
           destruct (contact_with_sickness k (fst c) (snd c) h a) as [F|[_ F]]; lia.
        -- apply is_vulnerable_true. lia.
      * now apply apply_contacts_keeps_infected_value.
    + cbn [fst snd] in *. rewrite Hnb, Hb, Ha, Nat.eqb_refl in Eb.
      cbn [andb] in Eb.
      now apply apply_contacts_keeps_infected_value.
    + destruct (contact_with_sickness k (fst c) (snd c) h b) as [E|[_ E]].
      * apply (IH _ a b (or_intror Hin)).
        -- apply is_infected_true.
           destruct (contact_with_sickness k (fst c) (snd c) h a) as [F|[_ F]]; lia.
        -- apply is_vulnerable_true. lia.
      * now apply apply_contacts_keeps_infected_value.
Qed.

(** Contacts between cells of which none is infected change nothing. *)
Lemma apply_contacts_idle k l :
  forall h,
    (forall c, In c l -> is_infected k (h (fst c)) = false /\
                         is_infected k (h (snd c)) = false) ->
    apply_contacts k l h = h.
Proof.
  induction l as [|c l IH]; intros h Hh; [reflexivity|].
  cbn. fold (apply_contacts k l (contact_with k (fst c) (snd c) h)).
  destruct (Hh c (or_introl eq_refl)) as [H1 H2].
  assert (E : contact_with k (fst c) (snd c) h = h).
  { unfold contact_with. rewrite H1, H2. cbn [andb]. now rewrite andb_false_r. }
  rewrite E. apply IH. intros c' Hc'. apply Hh. now right.
Qed.

Lemma exposed_vulnerable k h l r :
  exposed k h l r = true -> is_vulnerable k (h r) = true.
Proof. unfold exposed. intros H. now apply andb_true_iff in H. Qed.

Lemma exposed_by k h l a b :
  In (a, b) l \/ In (b, a) l ->
  is_infected k (h a) = true -> is_vulnerable k (h b) = true ->
  exposed k h l b = true.
Proof.
  intros Hin Ha Hb. unfold exposed. rewrite Hb. cbn [andb].
  apply existsb_exposes. exists a. tauto.
Qed.

Lemma exposed_transmits k h l r :
  VULNERABLE k < INFECTED k ->
  exposed k h l r = true ->
  sickness (apply_contacts k l h r) = INFECTED k.
Proof.
  intros HVI H. pose proof (exposed_vulnerable k h l r H) as Hv.
  unfold exposed in H. apply andb_true_iff in H. destruct H as [_ H].
  apply existsb_exposes in H. destruct H as (p & Hin & Hp).
  apply (apply_contacts_transmits k HVI l h p r); tauto.
Qed.

Lemma exposed_incl k h l l' r :
  incl l l' -> exposed k h l r = true -> exposed k h l' r = true.
Proof.
  intros Hi H. pose proof (exposed_vulnerable k h l r H) as Hv.
  unfold exposed in *. rewrite Hv in *. cbn [andb] in *.
  apply existsb_exposes in H. apply existsb_exposes.
  destruct H as (p & [Hin|Hin] & Hp); exists p; split; auto.
Qed.

(** With exposure closed under vulnerable pairs, the contacts of any part of
    the calls leave a cell that is not exposed as it is. *)
Lemma apply_contacts_spares_unexposed k h L :
  VULNERABLE k < INFECTED k ->
  exposure_closed k h L ->
  forall q, incl q L ->
  forall r, exposed k h L r = false ->
            sickness (apply_contacts k q h r) = sickness (h r).
Proof.
  intros HVI Hcl. induction q as [|[a b] q IH] using rev_ind; intros Hq r Hr.
  - reflexivity.
  - assert (Hq' : incl q L) by (intros x Hx; apply Hq, in_or_app; now left).
    assert (Hc : In (a, b) L) by (apply Hq, in_or_app; right; now left).
    specialize (IH Hq').
    rewrite apply_contacts_snoc, contact_with_sickness_eq. cbn [fst snd].
    set (h1 := apply_contacts k q h) in *.
    assert (Hinf : forall x, is_infected k (h1 x) = true ->
              is_infected k (h x) = true \/ exposed k h L x = true).
    { intros x Hx. destruct (exposed k h L x) eqn:E; [now right|left].
      apply is_infected_true. rewrite <- (IH x E). now apply is_infected_true. }
    assert (Hvul : is_vulnerable k (h1 r) = true -> is_vulnerable k (h r) = true).
    { intros Hx. apply is_vulnerable_true. rewrite <- (IH r Hr).
      now apply is_vulnerable_true. }
    destruct (is_infected k (h1 a) && is_vulnerable k (h1 b))%bool eqn:G1.
    + destruct (Nat.eqb_spec r b) as [->|_]; [|now apply IH].
      exfalso. apply andb_true_iff in G1. destruct G1 as [Ga Gb].
      specialize (Hvul Gb).
      destruct (Hinf a Ga) as [Ha|Ha].
      * rewrite (exposed_by k h L a b (or_introl Hc) Ha Hvul) in Hr. discriminate.
      * pose proof (Hcl (a, b) Hc (exposed_vulnerable _ _ _ _ Ha) Hvul) as E.
        cbn [fst snd] in E. congruence.
    + destruct (is_vulnerable k (h1 a) && is_infected k (h1 b))%bool eqn:G2;
        [|now apply IH].
      destruct (Nat.eqb_spec r a) as [->|_]; [|now apply IH].
      exfalso. apply andb_true_iff in G2. destruct G2 as [Ga Gb].
      specialize (Hvul Ga).
      destruct (Hinf b Gb) as [Hb|Hb].
      * rewrite (exposed_by k h L b a (or_intror Hc) Hb Hvul) in Hr. discriminate.
      * pose proof (Hcl (a, b) Hc Hvul (exposed_vulnerable _ _ _ _ Hb)) as E.
        cbn [fst snd] in E. congruence.
Qed.

(** With exposure closed under vulnerable pairs, the outcome of the contacts
    has a closed form, whatever their order. *)
Lemma apply_contacts_closed_exposure k h l :
  VULNERABLE k < INFECTED k ->
  exposure_closed k h l ->
  forall r, sickness (apply_contacts k l h r) =
            if exposed k h l r then INFECTED k else sickness (h r).
Proof.
  intros HVI Hcl r. destruct (exposed k h l r) eqn:E.
  - now apply exposed_transmits.
  - apply (apply_contacts_spares_unexposed k h l HVI Hcl l); [apply incl_refl|exact E].
Qed.

Lemma exposure_closed_same_pairs k h l1 l2 :
  same_pairs l1 l2 -> exposure_closed k h l1 -> exposure_closed k h l2.
Proof.
  intros Hs Hcl [a b] Hin Ha Hb. cbn [fst snd] in *.
  rewrite <- !(exposed_same_pairs k h l1 l2 _ Hs).
  destruct (proj2 (Hs a b) (or_introl Hin)) as [H|H].
  - exact (Hcl (a, b) H Ha Hb).
  - symmetry. exact (Hcl (b, a) H Hb Ha).
Qed.

Lemma filter_split_permutation {A} (f : A -> bool) l :
  Permutation l (filter f l ++ filter (fun x => negb (f x)) l).
Proof.
  induction l as [|x l IH]; cbn; [constructor|].
  destruct (f x); cbn.
  - now constructor.
  - apply Permutation_cons_app. exact IH.
Qed.

(** Vulnerable pairs first: only the exposed cells are infected. *)
Lemma vulnerable_pairs_first k h l r :
  VULNERABLE k < INFECTED k ->
  exposed k h l r = false ->
  sickness (apply_contacts k
              (filter (vulnerable_pair k h) l
               ++ filter (fun c => negb (vulnerable_pair k h c)) l) h r)
  = sickness (h r).
Proof.
  intros HVI Hr. rewrite apply_contacts_app.
  rewrite (apply_contacts_idle k (filter (vulnerable_pair k h) l) h).
  - rewrite apply_contacts_closed_form; [|exact HVI|].
    + destruct (exposed k h (filter (fun c => negb (vulnerable_pair k h c)) l) r)
        eqn:E; [|reflexivity].
      apply (exposed_incl k h _ l) in E; [congruence|].
      intros x Hx. now apply filter_In in Hx.
    + intros c Hc. apply filter_In in Hc. destruct Hc as [_ Hc].
      unfold vulnerable_pair in Hc. now apply negb_true_iff in Hc.
  - intros c Hc. apply filter_In in Hc. destruct Hc as [_ Hc].
    unfold vulnerable_pair in Hc. apply andb_true_iff in Hc.
    destruct Hc as [H1 H2].
    apply is_vulnerable_true in H1, H2.
    split; apply is_infected_false; lia.
Qed.

(** A vulnerable pair last: the exposed cell of the pair infects the other. *)
Lemma vulnerable_pair_last k h p s a b :
  VULNERABLE k < INFECTED k ->
  is_vulnerable k (h a) = true -> is_vulnerable k (h b) = true ->
  exposed k h (p ++ (a, b) :: s) a = true \/
  exposed k h (p ++ (a, b) :: s) b = true ->
  sickness (apply_contacts k ((p ++ s) ++ [(a, b)]) h a) = INFECTED k /\
  sickness (apply_contacts k ((p ++ s) ++ [(a, b)]) h b) = INFECTED k.
Proof.
  intros HVI Ha Hb Hex.
  pose proof Ha as Va. pose proof Hb as Vb.
  apply is_vulnerable_true in Va, Vb.
  assert (Hdrop : forall x, (x = a \/ x = b) ->
            exposed k h (p ++ (a, b) :: s) x = true ->
            exposed k h (p ++ s) x = true).
  { intros x Hx E. unfold exposed in *.
    apply andb_true_iff in E. destruct E as [Ev E]. rewrite Ev. cbn [andb].
    rewrite existsb_app in *. cbn [existsb] in E.
    assert (Hc : exposes k h x (a, b) = false).
    { unfold exposes. cbn [fst snd].
      replace (is_infected k (h a)) with false
        by (symmetry; apply is_infected_false; lia).
      replace (is_infected k (h b)) with false
        by (symmetry; apply is_infected_false; lia).
      now rewrite !andb_false_r. }
    rewrite Hc in E. cbn [orb] in E. exact E. }
  rewrite apply_contacts_snoc. cbn [fst snd].
  set (h1 := apply_contacts k (p ++ s) h).
  assert (S1 : forall x, x = a \/ x = b ->
            sickness (h1 x) = VULNERABLE k \/ sickness (h1 x) = INFECTED k).
  { intros x Hx. subst h1.
    destruct (apply_contacts_sickness k (p ++ s) h x) as [E|[_ E]];
      [left|right]; destruct Hx; subst; congruence. }
  assert (One : sickness (h1 a) = INFECTED k \/ sickness (h1 b) = INFECTED k).
  { destruct Hex as [E|E]; [left|right]; subst h1;
      apply exposed_transmits; auto. }
  rewrite !contact_with_sickness_eq. unfold is_infected, is_vulnerable.
  rewrite !Nat.eqb_refl.
  destruct (S1 a (or_introl eq_refl)) as [Ea|Ea];
    destruct (S1 b (or_intror eq_refl)) as [Eb|Eb];
    rewrite ?Ea, ?Eb;
    destruct (Nat.eqb_spec a b) as [E|E]; try (rewrite E in *);
    repeat match goal with
    | |- context [?u >=? ?v] => destruct (Z.geb_spec u v)
    | |- context [?u =? ?v] => destruct (Z.eqb_spec u v)
    end; cbn [andb]; rewrite ?Nat.eqb_refl;
    try (destruct (Nat.eqb b a)); try split; try lia; destruct One; lia.
Qed.

(** C8, amended. The state after a pass of [check_contacts] is the result of
    its [contact_with] calls in the order in which the code makes them. With
    [VULNERABLE < INFECTED], that state is independent of the order in which
    the pairs are processed exactly when exposure is closed under
    vulnerable pairs: of two vulnerable cells that the pass contacts with
    each other, either both or neither are contacted with a cell that
    passes [is_infected] before the pass. Under this condition every
    ordering of the same unordered pairs, with either party as [self], gives
    every cell the sickness, location and direction that the pass gives it:
    [INFECTED] for a vulnerable cell contacted with an infected one, the
    previous sickness otherwise. When the condition fails for a contacted
    pair, two orderings of the calls of the pass give some cell different
    sickness values. *)
Theorem check_contacts_order_matters_iff_exposure_open {fp : Float64} :
  forall (k : Constants) (m : Model.t),
    VULNERABLE k < INFECTED k ->
    let h := heap m in
    let log := snd (check_contacts_log k m) in
    heap (check_contacts k m) = apply_contacts k log h /\
    (exposure_closed k h log ->
     forall l, same_pairs log l ->
     forall r,
       sickness (apply_contacts k l h r) = sickness (heap (check_contacts k m) r) /\
       sickness (heap (check_contacts k m) r)
         = (if exposed k h log r then INFECTED k else sickness (h r)) /\
       location (apply_contacts k l h r) = location (heap (check_contacts k m) r) /\
       direction (apply_contacts k l h r) = direction (heap (check_contacts k m) r)) /\
    (forall c, In c log ->
       is_vulnerable k (h (fst c)) = true -> is_vulnerable k (h (snd c)) = true ->
       exposed k h log (fst c) <> exposed k h log (snd c) ->
       exists l1 l2,
         Permutation log l1 /\ Permutation log l2 /\
         exists r, sickness (apply_contacts k l1 h r)
                   <> sickness (apply_contacts k l2 h r)).
Proof.
  intros k m HVI h log.
  assert (Hh : heap (check_contacts k m) = apply_contacts k log h).
  { destruct (check_contacts_log_spec k m) as (E & Hh & _).
    subst log h. rewrite E. exact Hh. }
  split; [exact Hh|]. split.
  - intros Hcl l Hs r. rewrite Hh.
    pose proof (exposure_closed_same_pairs k h log l Hs Hcl) as Hcl'.
    rewrite (apply_contacts_closed_exposure k h l HVI Hcl' r).
    rewrite (apply_contacts_closed_exposure k h log HVI Hcl r).
    rewrite (exposed_same_pairs k h log l r Hs).
    destruct (apply_contacts_geometry k l h r) as [A1 B1].
    destruct (apply_contacts_geometry k log h r) as [A2 B2].
    rewrite A1, A2, B1, B2. auto.
  - intros [a b] Hin Ha Hb Hne. cbn [fst snd] in *.
    destruct (in_split _ _ Hin) as (p & s & E).
    exists ((p ++ s) ++ [(a, b)]),
           (filter (vulnerable_pair k h) log
            ++ filter (fun c => negb (vulnerable_pair k h c)) log).
    split; [|split].
    + rewrite E. etransitivity; [symmetry; apply Permutation_middle|].
      apply Permutation_cons_append.
    + apply filter_split_permutation.
    + pose proof Ha as Va. pose proof Hb as Vb.
      apply is_vulnerable_true in Va, Vb.
      assert (Hex : exposed k h log a = true \/ exposed k h log b = true).
      { destruct (exposed k h log a), (exposed k h log b); auto; congruence. }
      rewrite E in Hex.
      destruct (vulnerable_pair_last k h p s a b HVI Ha Hb Hex) as [La Lb].
      destruct (exposed k h log a) eqn:Xa; destruct (exposed k h log b) eqn:Xb;
        try congruence.
      * pose proof (vulnerable_pairs_first k h log b HVI Xb) as Fb.
        exists b. intros Heq.
        assert (X : INFECTED k = VULNERABLE k); [|lia].
        etransitivity; [symmetry; exact Lb|].
        etransitivity; [exact Heq|].
        etransitivity; [exact Fb|exact Vb].
      * pose proof (vulnerable_pairs_first k h log a HVI Xa) as Fa.
        exists a. intros Heq.
        assert (X : INFECTED k = VULNERABLE k); [|lia].
        etransitivity; [symmetry; exact La|].
        etransitivity; [exact Heq|].
        etransitivity; [exact Fa|exact Va].
Qed.

(** The amended C8 on three cells on a line at x = 0, 5 and 10, all within
    the radius of 15 of each other, the first infected: the pass contacts
    (0, 1), (0, 2), (1, 2); exposure is closed, and the calls in the opposite
    order with the parties exchanged give cell 2 the same sickness. *)
Lemma check_contacts_order_matters_iff_exposure_open_witness :
  let fp := exact_arithmetic in
  let k := sample_constants (-1) 90 in
  let h := heap_of [cell_at 0 0 1; cell_at 5 0 0; cell_at 10 0 0] in
  let m := Model.mk h [0; 1; 2]%nat 0 in
  let l := [(2, 1); (2, 0); (1, 0)]%nat in
  VULNERABLE k < INFECTED k /\
  snd (check_contacts_log k m) = [(0, 1); (0, 2); (1, 2)]%nat /\
  exposure_closed k h (snd (check_contacts_log k m)) /\
  same_pairs (snd (check_contacts_log k m)) l /\
  sickness (apply_contacts k l h 2%nat)
  = sickness (heap (check_contacts k m) 2%nat).
Proof.
  intros fp. cbv zeta.
  set (k := sample_constants (-1) 90).
  set (h := heap_of [cell_at 0 0 1; cell_at 5 0 0; cell_at 10 0 0]).
  set (m := Model.mk h [0; 1; 2]%nat 0).
  assert (HVI : VULNERABLE k < INFECTED k) by (simpl; lia).
  assert (N01 : near k h 0%nat 1%nat = true).
  { apply near_true, distance_lt; cbn; lra. }
  assert (N02 : near k h 0%nat 2%nat = true).
  { apply near_true, distance_lt; cbn; lra. }
  assert (N12 : near k h 1%nat 2%nat = true).
  { apply near_true, distance_lt; cbn; lra. }
  assert (L : snd (check_contacts_log k m) = [(0, 1); (0, 2); (1, 2)]%nat).
  { rewrite check_contacts_log_pairs
      by (cbn; repeat constructor; cbn; intuition discriminate).
    cbn [pairs_in_order population heap filter m].
    rewrite N01, N02, N12. reflexivity. }
  assert (Hcl : exposure_closed k h (snd (check_contacts_log k m))).
  { rewrite L. intros c [<-|[<-|[<-|[]]]] Ha Hb;
      try discriminate; reflexivity. }
  assert (Hs : same_pairs (snd (check_contacts_log k m))
                          [(2, 1); (2, 0); (1, 0)]%nat).
  { rewrite L. intros a b. cbn.
    split; intros [[E|[E|[E|[]]]]|[E|[E|[E|[]]]]]; inversion E; auto 10. }
  split; [exact HVI|]. split; [exact L|]. split; [exact Hcl|].
  split; [exact Hs|].
  exact (proj1 (proj1 (proj2 (check_contacts_order_matters_iff_exposure_open
                                k m HVI)) Hcl _ Hs 2%nat)).
Defined.

(** ** [Model.random_location] *)

(** C9, amended. A draw [r] in the interval [0, 1) gives the coordinate
    [r * BOUNDS_WIDTH - MAX_X], which lies in
    [-MAX_X, BOUNDS_WIDTH - MAX_X) when the width is positive. The location
    is inside the bounding box when the box is centred at the origin:
    [MIN_X = -MAX_X], [MIN_Y = -MAX_Y], with [MIN <= MAX] and the width and
    height equal to [MAX - MIN]. *)
Theorem random_location_in_centred_box :
  forall (k : Constants) (draws : Random) (n : nat),
    (0 <= draws n < 1)%R -> (0 <= draws (S n) < 1)%R ->
    BOUNDS_WIDTH k = (MAX_X k - MIN_X k)%R ->
    BOUNDS_HEIGHT k = (MAX_Y k - MIN_Y k)%R ->
    (MIN_X k <= MAX_X k)%R -> (MIN_Y k <= MAX_Y k)%R ->
    let p := fst (random_location k draws n) in
    (- MAX_X k <= Point.x p <= BOUNDS_WIDTH k - MAX_X k)%R /\
    (- MAX_Y k <= Point.y p <= BOUNDS_HEIGHT k - MAX_Y k)%R /\
    (MIN_X k = (- MAX_X k)%R -> MIN_Y k = (- MAX_Y k)%R ->
     (MIN_X k <= Point.x p <= MAX_X k)%R /\
     (MIN_Y k <= Point.y p <= MAX_Y k)%R) /\
    snd (random_location k draws n) = S (S n).
Proof.
  intros k draws n Hx Hy HW HH HX HY. cbn.
  assert (0 <= BOUNDS_WIDTH k)%R by lra.
  assert (0 <= BOUNDS_HEIGHT k)%R by lra.
  assert (0 <= draws n * BOUNDS_WIDTH k <= BOUNDS_WIDTH k)%R by nra.
  assert (0 <= draws (S n) * BOUNDS_HEIGHT k <= BOUNDS_HEIGHT k)%R by nra.
  repeat split; try lra.
Qed.

(** The amended C9 on the sample box [-200, 200] x [-200, 200]. *)
Lemma random_location_in_centred_box_witness :
  let k := sample_constants (-1) 90 in
  let p := fst (random_location k half_draws 0) in
  (0 <= half_draws 0%nat < 1)%R /\
  BOUNDS_WIDTH k = (MAX_X k - MIN_X k)%R /\
  (MIN_X k <= MAX_X k)%R /\
  MIN_X k = (- MAX_X k)%R /\
  (MIN_X k <= Point.x p <= MAX_X k)%R /\
  (MIN_Y k <= Point.y p <= MAX_Y k)%R.
Proof.
  cbv zeta.
  assert (H0 : (0 <= half_draws 0%nat < 1)%R) by (unfold half_draws; lra).
  assert (H1 : (0 <= half_draws 1%nat < 1)%R) by (unfold half_draws; lra).
  assert (HW : BOUNDS_WIDTH (sample_constants (-1) 90)
               = (MAX_X (sample_constants (-1) 90)
                  - MIN_X (sample_constants (-1) 90))%R) by (cbn; lra).
  assert (HH : BOUNDS_HEIGHT (sample_constants (-1) 90)
               = (MAX_Y (sample_constants (-1) 90)
                  - MIN_Y (sample_constants (-1) 90))%R) by (cbn; lra).
  assert (HX : (MIN_X (sample_constants (-1) 90)
                <= MAX_X (sample_constants (-1) 90))%R) by (cbn; lra).
  assert (HY : (MIN_Y (sample_constants (-1) 90)
                <= MAX_Y (sample_constants (-1) 90))%R) by (cbn; lra).
  assert (SX : MIN_X (sample_constants (-1) 90)
               = (- MAX_X (sample_constants (-1) 90))%R) by (cbn; lra).
  assert (SY : MIN_Y (sample_constants (-1) 90)
               = (- MAX_Y (sample_constants (-1) 90))%R) by (cbn; lra).
  split; [exact H0|]. split; [exact HW|]. split; [exact HX|]. split; [exact SX|].
  exact (proj1 (proj2 (proj2
           (random_location_in_centred_box (sample_constants (-1) 90)
              half_draws 0 H0 H1 HW HH HX HY))) SX SY).
Defined.

(** C9 as stated fails on a box that is not centred at the origin: on the
    box [0, 400] x [0, 400] the draw 1/2 gives the location (-200, -200),
    which is outside. *)
Lemma random_location_counterexample :
  let k := corner_box_constants in
  let p := fst (random_location k half_draws 0) in
  (0 <= half_draws 0%nat < 1)%R /\ (0 <= half_draws 1%nat < 1)%R /\
  BOUNDS_WIDTH k = (MAX_X k - MIN_X k)%R /\
  BOUNDS_HEIGHT k = (MAX_Y k - MIN_Y k)%R /\
  Point.x p = (-200)%R /\ Point.y p = (-200)%R /\
  ~ (MIN_X k <= Point.x p <= MAX_X k)%R /\
  ~ (MIN_Y k <= Point.y p <= MAX_Y k)%R.
Proof.
  cbv zeta. unfold half_draws. cbn.
  repeat split; try lra; intros [H _]; lra.
Qed.

(** * Further properties of the code *)

(** ** [Cell.tick] *)

Lemma tick_geometry {fp : Float64} k c :
  location (Cell.tick k c) = Point.add (location c) (direction c) /\
  direction (Cell.tick k c) = direction c.
Proof.
  unfold Cell.tick, is_infected, immunize, set_sickness, set_location.
  cbn [sickness location direction].
  destruct (sickness c >=? INFECTED k); [|auto].
  destruct (sickness c + 1 >=? RECOVERY_PERIOD k); auto.
Qed.

(** X3. [Cell.tick] moves the cell by its direction whatever its sickness,
    and never changes the direction: after [n] ticks the direction is the
    initial one and the location is the result of adding that direction [n]
    times with [Point.add], for an infected, recovering or healthy cell
    alike and however the additions round. *)
Theorem ticks_move_by_the_same_direction {fp : Float64} :
  forall (k : Constants) (c : Cell.t) (n : nat),
    location (ticks k n c)
      = Nat.iter n (fun p => Point.add p (direction c)) (location c) /\
    direction (ticks k n c) = direction c.
Proof.
  intros k c. induction n as [|n (IHl & IHd)].
  - cbn. auto.
  - rewrite ticks_S. destruct (tick_geometry k (ticks k n c)) as [Hl Hd].
    rewrite Hl, Hd, IHd, IHl. auto.
Qed.

(** The sickness of a cell below [INFECTED] is not touched by ticks. *)
Lemma ticks_idle {fp : Float64} k c :
  sickness c < INFECTED k -> forall n, sickness (ticks k n c) = sickness c.
Proof.
  intros Hc. induction n as [|n IH]; [reflexivity|].
  rewrite ticks_S, tick_sickness, IH.
  destruct (Z.geb_spec (sickness c) (INFECTED k)); [lia|reflexivity].
Qed.

Lemma ticks_add {fp : Float64} k a b c : ticks k (a + b) c = ticks k a (ticks k b c).
Proof. unfold ticks. apply Nat.iter_add. Qed.

(** X4. A cell that does not pass [is_infected] never changes its sickness
    by ticking, however often: it gives the same answers to [is_vulnerable],
    [is_infected] and [is_immune], and shows the same colour; ticks alone
    never infect a cell. *)
Theorem ticks_never_infect {fp : Float64} :
  forall (k : Constants) (c : Cell.t) (n : nat),
    is_infected k c = false ->
    sickness (ticks k n c) = sickness c /\
    is_infected k (ticks k n c) = false /\
    is_vulnerable k (ticks k n c) = is_vulnerable k c /\
    is_immune k (ticks k n c) = is_immune k c /\
    color k (ticks k n c) = color k c.
Proof.
  intros k c n Hc. pose proof Hc as Hlt. apply is_infected_false in Hlt.
  pose proof (ticks_idle k c Hlt n) as E.
  unfold color, is_infected, is_vulnerable, is_immune in *. rewrite E.
  rewrite Hc. auto.
Qed.

(** X4 on a vulnerable cell after 1000 ticks. *)
Lemma ticks_never_infect_witness :
  let fp := exact_arithmetic in
  let k := sample_constants (-1) 90 in
  is_infected k (cell_with 0) = false /\
  is_vulnerable k (ticks k 1000 (cell_with 0)) = true.
Proof.
  intros fp.
  cbv zeta. split; [reflexivity|].
  destruct (ticks_never_infect (sample_constants (-1) 90) (cell_with 0) 1000
              eq_refl) as (_ & _ & H & _).
  rewrite H. reflexivity.
Defined.

(** X5. Whether immunity lasts is decided by the configuration. An immune
    cell stays immune over every number of ticks when [IMMUNE < INFECTED]
    (it no longer counts) or when [RECOVERY_PERIOD <= IMMUNE + 1] (it counts
    and is immunized again at once); when
    [INFECTED <= IMMUNE < RECOVERY_PERIOD - 1] the next tick makes it count
    again and it is no longer immune. *)
Theorem immunity_lasts_iff {fp : Float64} :
  forall (k : Constants) (c : Cell.t),
    is_immune k c = true ->
    (IMMUNE k < INFECTED k \/ RECOVERY_PERIOD k <= IMMUNE k + 1 ->
     forall n, is_immune k (ticks k n c) = true) /\
    (INFECTED k <= IMMUNE k -> IMMUNE k + 1 < RECOVERY_PERIOD k ->
     is_immune k (Cell.tick k c) = false /\
     sickness (Cell.tick k c) = IMMUNE k + 1).
Proof.
  intros k c Hc. apply is_immune_true in Hc. split.
  - intros Hk n. apply is_immune_true. induction n as [|n IH]; [exact Hc|].
    rewrite ticks_S, tick_sickness, IH.
    destruct (Z.geb_spec (IMMUNE k) (INFECTED k)); [|reflexivity].
    destruct (Z.geb_spec (IMMUNE k + 1) (RECOVERY_PERIOD k)); [reflexivity|lia].
  - intros H1 H2. unfold is_immune. rewrite tick_sickness, Hc.
    destruct (Z.geb_spec (IMMUNE k) (INFECTED k)); [|lia].
    destruct (Z.geb_spec (IMMUNE k + 1) (RECOVERY_PERIOD k)); [lia|].
    split; [apply Z.eqb_neq; lia|reflexivity].
Qed.

(** X5 with [IMMUNE = -1] below [INFECTED = 1]. *)
Lemma immunity_lasts_iff_witness :
  let fp := exact_arithmetic in
  let k := sample_constants (-1) 90 in
  is_immune k (cell_with (-1)) = true /\
  is_immune k (ticks k 500 (cell_with (-1))) = true.
Proof.
  intros fp.
  cbv zeta. split; [reflexivity|].
  apply (proj1 (immunity_lasts_iff (sample_constants (-1) 90)
                  (cell_with (-1)) eq_refl)).
  left. simpl. lia.
Defined.

(** ** [Cell.color] *)

(** X6. [Cell.color] answers "red" exactly for the cells that pass
    [is_infected], "blue" exactly for the immune cells that do not, and
    "gray" for the rest. Because [is_infected] is asked first, no cell is
    ever blue in a configuration with [INFECTED <= IMMUNE]. *)
Theorem color_follows_the_queries :
  forall (k : Constants) (c : Cell.t),
    (color k c = "red"%string <-> is_infected k c = true) /\
    (color k c = "blue"%string <->
     is_infected k c = false /\ is_immune k c = true) /\
    (color k c = "gray"%string <->
     is_infected k c = false /\ is_immune k c = false) /\
    (INFECTED k <= IMMUNE k -> color k c <> "blue"%string).
Proof.
  intros k c. unfold color.
  destruct (is_infected k c) eqn:Ei; destruct (is_immune k c) eqn:Em;
    repeat split; try discriminate; try tauto;
    try (intros [? ?]; discriminate).
  intros H _. apply is_infected_false in Ei. apply is_immune_true in Em. lia.
Qed.

Lemma ticks_recovery {fp : Float64} k c :
  sickness c = INFECTED k ->
  sickness (ticks k (recovery_ticks k) c) = IMMUNE k.
Proof.
  intros Hc.
  assert (Hn : exists n, recovery_ticks k = S n).
  { unfold recovery_ticks.
    exists (Nat.pred (Z.to_nat (Z.max 1 (RECOVERY_PERIOD k - INFECTED k)))). lia. }
  destruct Hn as [n Hn].
  rewrite Hn, ticks_S, tick_sickness, (ticks_counting k c Hc) by lia.
  unfold recovery_ticks in Hn.
  destruct (Z.geb_spec (INFECTED k + Z.of_nat n) (INFECTED k)); [|lia].
  destruct (Z.geb_spec (INFECTED k + Z.of_nat n + 1) (RECOVERY_PERIOD k)); lia.
Qed.

(** X7. In a configuration with [IMMUNE < INFECTED], a cell that has just
    contracted the disease is red during its first
    [max 1 (RECOVERY_PERIOD - INFECTED)] ticks and blue, immune and no longer
    infected, for ever after. *)
Theorem infection_runs_its_course {fp : Float64} :
  forall (k : Constants) (c : Cell.t) (j : nat),
    IMMUNE k < INFECTED k ->
    let c0 := contract_disease k c in
    ((j < recovery_ticks k)%nat ->
     color k (ticks k j c0) = "red"%string /\
     is_infected k (ticks k j c0) = true) /\
    ((recovery_ticks k <= j)%nat ->
     color k (ticks k j c0) = "blue"%string /\
     is_infected k (ticks k j c0) = false /\
     is_immune k (ticks k j c0) = true).
Proof.
  intros k c j Hk c0.
  assert (H0 : sickness c0 = INFECTED k) by reflexivity.
  split; intros Hj.
  - pose proof (ticks_counting k c0 H0 j Hj) as E.
    assert (Hi : is_infected k (ticks k j c0) = true)
      by (apply is_infected_true; lia).
    unfold color. now rewrite Hi.
  - replace j with ((j - recovery_ticks k) + recovery_ticks k)%nat by lia.
    rewrite ticks_add.
    pose proof (ticks_recovery k c0 H0) as E.
    assert (E' : sickness (ticks k (j - recovery_ticks k)
                             (ticks k (recovery_ticks k) c0)) = IMMUNE k).
    { rewrite ticks_idle; [exact E|]. rewrite E. exact Hk. }
    assert (Hi : is_infected k (ticks k (j - recovery_ticks k)
                                  (ticks k (recovery_ticks k) c0)) = false)
      by (apply is_infected_false; lia).
    assert (Hm : is_immune k (ticks k (j - recovery_ticks k)
                                (ticks k (recovery_ticks k) c0)) = true)
      by (now apply is_immune_true).
    unfold color. now rewrite Hi, Hm.
Qed.

(** X7 with a recovery period of 90: red after 88 ticks, blue after 89. *)
Lemma infection_runs_its_course_witness :
  let fp := exact_arithmetic in
  let k := sample_constants (-1) 90 in
  let c0 := contract_disease k (cell_with 0) in
  IMMUNE k < INFECTED k /\
  color k (ticks k 88 c0) = "red"%string /\
  color k (ticks k 89 c0) = "blue"%string.
Proof.
  intros fp.
  cbv zeta.
  assert (Hk : IMMUNE (sample_constants (-1) 90)
               < INFECTED (sample_constants (-1) 90)) by (simpl; lia).
  split; [exact Hk|]. split.
  - refine (proj1 (proj1 (infection_runs_its_course (sample_constants (-1) 90)
                            (cell_with 0) 88 Hk) _)).
    vm_compute. lia.
  - refine (proj1 (proj2 (infection_runs_its_course (sample_constants (-1) 90)
                            (cell_with 0) 89 Hk) _)).
    vm_compute. lia.
Defined.

(** ** [Model.enforce_bounds] *)

Lemma Rltb_true a b : Rltb a b = true <-> (a < b)%R.
Proof. unfold Rltb. destruct (Rlt_dec a b); split; auto; discriminate. Qed.

Lemma Rltb_false a b : Rltb a b = false <-> (b <= a)%R.
Proof.
  unfold Rltb. destruct (Rlt_dec a b); split; auto; try discriminate; lra.
Qed.

Ltac bounds_cases k c :=
  unfold enforce_bounds;
  destruct (Rltb (MAX_X k) (Point.x (location c))) eqn:?B1;
    [|destruct (Rltb (Point.x (location c)) (MIN_X k)) eqn:?B2;
      [|destruct (Rltb (MAX_Y k) (Point.y (location c))) eqn:?B3;
        [|destruct (Rltb (Point.y (location c)) (MIN_Y k)) eqn:?B4]]];
  repeat match goal with
  | H : Rltb _ _ = true |- _ => apply Rltb_true in H
  | H : Rltb _ _ = false |- _ => apply Rltb_false in H
  end;
  cbn [location direction sickness Point.x Point.y].

(** X8. [Model.enforce_bounds] never touches the sickness and keeps the
    speed (the length of the direction vector); it changes one axis at most;
    and it leaves a cell that is inside the box exactly as it is. *)
Theorem enforce_bounds_reflects :
  forall (k : Constants) (c : Cell.t),
    let c' := enforce_bounds k c in
    sickness c' = sickness c /\
    norm2 (direction c') = norm2 (direction c) /\
    ((Point.y (location c') = Point.y (location c) /\
      Point.y (direction c') = Point.y (direction c)) \/
     (Point.x (location c') = Point.x (location c) /\
      Point.x (direction c') = Point.x (direction c))) /\
    (within_x k (location c) -> within_y k (location c) -> c' = c).
Proof.
  intros k c. unfold within_x, within_y, norm2. cbv zeta.
  bounds_cases k c; repeat split; auto; try ring; try (intros; lra).
Qed.

(** X8 on a cell at the origin of the sample box. *)
Lemma enforce_bounds_reflects_witness :
  let k := sample_constants (-1) 90 in
  within_x k (location (cell_with 1)) /\ within_y k (location (cell_with 1)) /\
  enforce_bounds k (cell_with 1) = cell_with 1.
Proof.
  cbv zeta.
  assert (Hx : within_x (sample_constants (-1) 90) (location (cell_with 1)))
    by (unfold within_x; cbn; lra).
  assert (Hy : within_y (sample_constants (-1) 90) (location (cell_with 1)))
    by (unfold within_y; cbn; lra).
  split; [exact Hx|]. split; [exact Hy|].
  exact (proj2 (proj2 (proj2 (enforce_bounds_reflects
                                (sample_constants (-1) 90) (cell_with 1))))
               Hx Hy).
Defined.

Lemma enforce_bounds_x k c :
  (MIN_X k <= MAX_X k)%R -> within_x k (location (enforce_bounds k c)).
Proof.
  intros HX. unfold within_x. bounds_cases k c; lra.
Qed.

Lemma enforce_bounds_y k c :
  (MIN_Y k <= MAX_Y k)%R -> within_x k (location c) ->
  within_y k (location (enforce_bounds k c)).
Proof.
  intros HY. unfold within_x, within_y. bounds_cases k c; lra.
Qed.

(** X9. With [MIN_X <= MAX_X] and [MIN_Y <= MAX_Y], [enforce_bounds] always
    brings the x coordinate back into the box, but the y coordinate only
    when x was inside already: a cell beyond [MAX_X] gets [x = MAX_X] and its
    x direction negated while its y coordinate and y direction stay as they
    are, inside the box or not. A second call brings the cell inside the box
    on both axes. *)
Theorem enforce_bounds_first_axis_wins :
  forall (k : Constants) (c : Cell.t),
    (MIN_X k <= MAX_X k)%R -> (MIN_Y k <= MAX_Y k)%R ->
    let c' := enforce_bounds k c in
    within_x k (location c') /\
    (within_x k (location c) -> within_y k (location c')) /\
    ((MAX_X k < Point.x (location c))%R ->
     location c' = Point.mk (MAX_X k) (Point.y (location c)) /\
     direction c' = Point.mk (Point.x (direction c) * -1) (Point.y (direction c))) /\
    (within_x k (location (enforce_bounds k c')) /\
     within_y k (location (enforce_bounds k c'))).
Proof.
  intros k c HX HY c'. subst c'.
  split; [now apply enforce_bounds_x|].
  split; [now apply enforce_bounds_y|].
  split.
  - intros H. apply Rltb_true in H. unfold enforce_bounds. rewrite H. auto.
  - split; [now apply enforce_bounds_x|].
    apply enforce_bounds_y; [exact HY|]. now apply enforce_bounds_x.
Qed.

(** X9 on a cell that has left the sample box through its upper right
    corner: one call repairs x only, and y is still outside. *)
Lemma enforce_bounds_first_axis_wins_witness :
  let k := sample_constants (-1) 90 in
  let c := Cell.mk (Point.mk 203 204) (Point.mk 5 5) 0 in
  (MIN_X k <= MAX_X k)%R /\ (MIN_Y k <= MAX_Y k)%R /\
  (MAX_X k < Point.x (location c))%R /\
  location (enforce_bounds k c) = Point.mk 200 204 /\
  within_y k (location (enforce_bounds k (enforce_bounds k c))).
Proof.
  cbv zeta.
  assert (HX : (MIN_X (sample_constants (-1) 90)
                <= MAX_X (sample_constants (-1) 90))%R) by (cbn; lra).
  assert (HY : (MIN_Y (sample_constants (-1) 90)
                <= MAX_Y (sample_constants (-1) 90))%R) by (cbn; lra).
  assert (Hout : (MAX_X (sample_constants (-1) 90)
                  < Point.x (location (Cell.mk (Point.mk 203 204)
                                               (Point.mk 5 5) 0)))%R)
    by (cbn; lra).
  split; [exact HX|]. split; [exact HY|]. split; [exact Hout|].
  destruct (enforce_bounds_first_axis_wins (sample_constants (-1) 90)
              (Cell.mk (Point.mk 203 204) (Point.mk 5 5) 0) HX HY)
    as (_ & _ & H3 & _ & H5).
  split; [exact (proj1 (H3 Hout))|exact H5].
Defined.

(** ** [Model.random_direction] and [Model.__init__] *)

Lemma init_valid {fp : Float64} k cells speed si sm draws :
  valid_arguments cells si sm ->
  Model.init k cells speed si sm draws =
  let st := spawn k (Z.to_nat (cells - si - sm)) (fun c => c) speed draws
              (blank k, O) in
  let st := spawn k (Z.to_nat si) (fun c => set_sickness c (INFECTED k))
              speed draws st in
  let st := spawn k (Z.to_nat sm) (fun c => set_sickness c (IMMUNE k))
              speed draws st in
  (Done, fst st, snd st).
Proof.
  intros Hv. unfold valid_arguments in Hv. unfold Model.init.
  destruct ((si >=? cells) || (si <=? 0))%bool eqn:E1; [zbool; lia|].
  destruct ((sm >=? cells) || (sm <? 0))%bool eqn:E2; [zbool; lia|].
  destruct (sm + si >=? cells) eqn:E3; [zbool; lia|].
  reflexivity.
Qed.

(** The place and the direction that the draws give to the cell built from
    cursor position [3 * r]. *)
Lemma spawn_geometry {fp : Float64} k count seed speed draws :
  (forall c, location (seed c) = location c /\ direction (seed c) = direction c) ->
  forall self n,
    population self = seq 0 (length (population self)) ->
    n = (3 * length (population self))%nat ->
    (forall r, (r < length (population self))%nat ->
       location (heap self r) = fst (random_location k draws (3 * r)) /\
       direction (heap self r) = fst (random_direction speed draws (3 * r + 2))) ->
    forall r, (r < length (population self) + count)%nat ->
       location (heap (fst (spawn k count seed speed draws (self, n))) r)
         = fst (random_location k draws (3 * r)) /\
       direction (heap (fst (spawn k count seed speed draws (self, n))) r)
         = fst (random_direction speed draws (3 * r + 2)).
Proof.
  intros Hseed. induction count as [|count IH]; intros self n Hpop Hn Hold r Hr.
  - cbn [spawn fst]. apply Hold. lia.
  - cbn [spawn random_location random_direction].
    set (cell := seed _). set (self1 := Model.mk _ _ _).
    assert (Hlen1 : length (population self1) = S (length (population self))).
    { subst self1. cbn [population]. rewrite length_app. cbn. lia. }
    apply IH.
    + rewrite Hlen1. subst self1. cbn [population].
      rewrite seq_S, Nat.add_0_l. now rewrite <- Hpop.
    + rewrite Hlen1. lia.
    + intros r' Hr'. rewrite Hlen1 in Hr'. subst self1. cbn [heap].
      destruct (Nat.eq_dec r' (length (population self))) as [->|Hne].
      * rewrite upd_same. subst cell.
        destruct (Hseed (Cell.init k
                    (Point.mk (draws n * BOUNDS_WIDTH k - MAX_X k)
                              (draws (S n) * BOUNDS_HEIGHT k - MAX_Y k))
                    (Point.mk (fmul (fcos (fmul (fmul 2 fpi) (draws (S (S n))))) speed)
                              (fmul (fsin (fmul (fmul 2 fpi) (draws (S (S n))))) speed))))
          as [El Ed].
        rewrite El, Ed. subst n. unfold random_location, random_direction.
        cbn [fst Cell.init location direction].
        replace (3 * length (population self) + 2)%nat
          with (S (S (3 * length (population self)))) by lia.
        split; reflexivity.
      * rewrite upd_other by exact Hne. apply Hold. lia.
    + rewrite Hlen1. lia.
Qed.

Lemma spawn_laid_out {fp : Float64} k count seed speed draws s :
  (forall loc dir, sickness (seed (Cell.init k loc dir)) = s) ->
  (forall c, location (seed c) = location c /\ direction (seed c) = direction c) ->
  forall self n,
    laid_out k speed draws self n ->
    laid_out k speed draws (fst (spawn k count seed speed draws (self, n)))
                           (snd (spawn k count seed speed draws (self, n))) /\
    length (population (fst (spawn k count seed speed draws (self, n))))
      = (length (population self) + count)%nat.
Proof.
  intros Hs Hg self n (Hpop & Hn & Ht & Hgeo).
  destruct (spawn_spec k count seed speed draws s Hs self n Hpop)
    as (P1 & _ & P3 & P4).
  cbv zeta in P1, P3, P4.
  assert (Hlen : length (population (fst (spawn k count seed speed draws (self, n))))
                 = (length (population self) + count)%nat).
  { rewrite P1. apply length_seq. }
  split; [|exact Hlen]. unfold laid_out. rewrite Hlen.
  split; [exact P1|]. split; [rewrite P3; lia|]. split; [congruence|].
  apply spawn_geometry; auto.
Qed.

(** X11. On valid arguments [Model.__init__] draws exactly three random
    numbers per cell, in order: the cell with reference [r] stands at the
    place drawn by [random_location] from draws [3 r] and [3 r + 1] and
    moves in the direction drawn by [random_direction] from draw [3 r + 2];
    the tick counter starts at 0. *)
Theorem init_draws_three_numbers_per_cell {fp : Float64} :
  forall (k : Constants) (cells : Z) (speed : R)
         (start_infected start_immune : Z) (draws : Random),
    valid_arguments cells start_infected start_immune ->
    let res := Model.init k cells speed start_infected start_immune draws in
    let m := snd (fst res) in
    snd res = (3 * Z.to_nat cells)%nat /\
    time m = 0 /\
    forall r, (r < Z.to_nat cells)%nat ->
      location (heap m r) = fst (random_location k draws (3 * r)) /\
      direction (heap m r) = fst (random_direction speed draws (3 * r + 2)).
Proof.
  intros k cells speed si sm draws Hv.
  rewrite (init_valid k cells speed si sm draws Hv). cbv zeta. cbn [fst snd].
  unfold valid_arguments in Hv.
  assert (L0 : laid_out k speed draws (blank k) 0%nat).
  { unfold laid_out. cbn. repeat split; intros; lia. }
  destruct (spawn_laid_out k (Z.to_nat (cells - si - sm)) (fun c => c) speed draws
              (VULNERABLE k) (fun _ _ => eq_refl) (fun _ => conj eq_refl eq_refl)
              _ _ L0) as [L1 N1].
  destruct (spawn k (Z.to_nat (cells - si - sm)) (fun c => c) speed draws
              (blank k, 0%nat)) as [m1 n1].
  cbn [fst snd] in L1, N1.
  destruct (spawn_laid_out k (Z.to_nat si) (fun c => set_sickness c (INFECTED k))
              speed draws (INFECTED k) (fun _ _ => eq_refl)
              (fun _ => conj eq_refl eq_refl) _ _ L1) as [L2 N2].
  destruct (spawn k (Z.to_nat si) (fun c => set_sickness c (INFECTED k))
              speed draws (m1, n1)) as [m2 n2].
  cbn [fst snd] in L2, N2.
  destruct (spawn_laid_out k (Z.to_nat sm) (fun c => set_sickness c (IMMUNE k))
              speed draws (IMMUNE k) (fun _ _ => eq_refl)
              (fun _ => conj eq_refl eq_refl) _ _ L2) as [L3 N3].
  destruct (spawn k (Z.to_nat sm) (fun c => set_sickness c (IMMUNE k))
              speed draws (m2, n2)) as [m3 n3].
  cbn [fst snd] in L3, N3 |- *.
  destruct L3 as (_ & Hn & Ht & Hgeo).
  assert (Hlen : length (population m3) = Z.to_nat cells).
  { rewrite N3, N2, N1. cbn [blank population length]. lia. }
  rewrite Hlen in Hn, Hgeo.
  split; [exact Hn|]. split; [exact Ht|].
  exact Hgeo.
Qed.

(** X11 on [Model(10, 1.0, 2, 3)]: thirty draws. *)
Lemma init_draws_three_numbers_per_cell_witness :
  let fp := exact_arithmetic in
  valid_arguments 10 2 3 /\
  snd (Model.init (sample_constants (-1) 90) 10 1 2 3 half_draws) = 30%nat.
Proof.
  intros fp.
  assert (Hv : valid_arguments 10 2 3) by (unfold valid_arguments; lia).
  split; [exact Hv|].
  exact (proj1 (init_draws_three_numbers_per_cell (sample_constants (-1) 90)
                  10 1 2 3 half_draws Hv)).
Defined.

(** ** Transmission in a contact pass *)

Lemma pairs_in_order_complete test l a b :
  In a l -> In b l -> a <> b -> test a b = true -> test b a = true ->
  In (a, b) (pairs_in_order test l) \/ In (b, a) (pairs_in_order test l).
Proof.
  induction l as [|c later IH]; intros Ha Hb Hne Hab Hba; [destruct Ha|].
  cbn [pairs_in_order]. destruct Ha as [->|Ha]; destruct Hb as [->|Hb].
  - congruence.
  - left. apply in_or_app. left. apply in_map, filter_In. auto.
  - right. apply in_or_app. left. apply in_map, filter_In. auto.
  - destruct (IH Ha Hb Hne Hab Hba) as [H|H]; [left|right];
      apply in_or_app; now right.
Qed.

(** X12. Transmission: with [VULNERABLE < INFECTED] and a population of
    distinct objects, a vulnerable member whose distance to an infected
    member, as [Point.distance] computes it from either cell to the other,
    is below [CELL_RADIUS] is infected after the pass of [check_contacts],
    with sickness exactly [INFECTED], wherever the two stand in the
    population and whatever the other contacts of the pass do; the infected
    member is still infected. This holds however the floating-point
    operations round. *)
Theorem check_contacts_transmits {fp : Float64} :
  forall (k : Constants) (m : Model.t) (a b : ref),
    VULNERABLE k < INFECTED k ->
    NoDup (population m) ->
    In a (population m) -> In b (population m) ->
    (Point.distance (location (heap m a)) (location (heap m b))
     < CELL_RADIUS k)%R ->
    (Point.distance (location (heap m b)) (location (heap m a))
     < CELL_RADIUS k)%R ->
    is_infected k (heap m a) = true ->
    is_vulnerable k (heap m b) = true ->
    sickness (heap (check_contacts k m) b) = INFECTED k /\
    is_infected k (heap (check_contacts k m) b) = true /\
    is_infected k (heap (check_contacts k m) a) = true.
Proof.
  intros k m a b HVI Hnd Ha Hb Hab Hba Hia Hvb.
  assert (Hne : a <> b).
  { intros ->. apply is_infected_true in Hia. apply is_vulnerable_true in Hvb. lia. }
  destruct (check_contacts_log_spec k m) as (E & Hh & _).
  rewrite (check_contacts_log_pairs k m Hnd) in E.
  rewrite Hh, <- E.
  assert (Hin : In (a, b) (pairs_in_order (near k (heap m)) (population m)) \/
                In (b, a) (pairs_in_order (near k (heap m)) (population m))).
  { apply pairs_in_order_complete; auto; now apply near_true. }
  pose proof (apply_contacts_transmits k HVI _ (heap m) a b Hin Hia Hvb) as Es.
  split; [exact Es|]. split.
  - apply is_infected_true. lia.
  - now apply apply_contacts_keeps_infected.
Qed.

(** X12 on three cells on a line, at x = 0, 10 and 20, the last infected:
    the middle one is within the radius of 15. *)
Lemma check_contacts_transmits_witness :
  let fp := exact_arithmetic in
  let k := sample_constants (-1) 90 in
  let h := heap_of [cell_at 0 0 0; cell_at 10 0 0; cell_at 20 0 1] in
  let m := Model.mk h [0; 1; 2]%nat 0 in
  VULNERABLE k < INFECTED k /\ NoDup (population m) /\
  sickness (heap (check_contacts k m) 1%nat) = INFECTED k.
Proof.
  intros fp.
  cbv zeta.
  assert (HVI : VULNERABLE (sample_constants (-1) 90)
                < INFECTED (sample_constants (-1) 90)) by (simpl; lia).
  assert (Hnd : NoDup [0; 1; 2]%nat)
    by (repeat constructor; cbn; intuition discriminate).
  split; [exact HVI|]. split; [exact Hnd|].
  refine (proj1 (check_contacts_transmits (sample_constants (-1) 90)
            (Model.mk (heap_of [cell_at 0 0 0; cell_at 10 0 0; cell_at 20 0 1])
                      [0; 1; 2]%nat 0)
            2%nat 1%nat HVI Hnd _ _ _ _ eq_refl eq_refl)).
  - cbn. auto.
  - cbn. auto.
  - apply distance_lt; cbn; lra.
  - apply distance_lt; cbn; lra.
Defined.

(** ** [Model.tick] *)

Lemma tick_unfold {fp : Float64} k m :
  Model.tick k m =
  check_contacts k (Model.mk (move_all k (population m) (heap m))
                             (population m) (time m + 1)).
Proof. reflexivity. Qed.

Lemma enforce_bounds_sickness k c :
  sickness (enforce_bounds k c) = sickness c.
Proof. bounds_cases k c; reflexivity. Qed.

Lemma moved_sickness {fp : Float64} k c : sickness (moved k c) = sickness (Cell.tick k c).
Proof. apply enforce_bounds_sickness. Qed.

Lemma move_all_elsewhere {fp : Float64} k pop :
  forall h r, ~ In r pop -> move_all k pop h r = h r.
Proof.
  induction pop as [|c pop IH]; intros h r Hr; [reflexivity|].
  cbn. fold (move_all k pop (upd h c (moved k (h c)))).
  rewrite IH by (intros H; apply Hr; now right).
  apply upd_other. intros ->. apply Hr. now left.
Qed.

Lemma move_all_member {fp : Float64} k pop :
  NoDup pop ->
  forall h r, In r pop -> move_all k pop h r = moved k (h r).
Proof.
  induction 1 as [|c pop Hc Hnd IH]; intros h r Hr; [destruct Hr|].
  cbn. fold (move_all k pop (upd h c (moved k (h c)))).
  destruct Hr as [->|Hr].
  - rewrite move_all_elsewhere by exact Hc. apply upd_same.
  - rewrite IH by exact Hr. f_equal. apply upd_other. intros ->. contradiction.
Qed.

(** Moving cells of which none is infected changes no sickness. *)
Lemma move_all_idle {fp : Float64} k pop :
  forall h,
    (forall r, In r pop -> is_infected k (h r) = false) ->
    forall r, sickness (move_all k pop h r) = sickness (h r).
Proof.
  induction pop as [|c pop IH]; intros h Hh r; [reflexivity|].
  cbn. fold (move_all k pop (upd h c (moved k (h c)))).
  assert (Hstep : forall x, sickness (upd h c (moved k (h c)) x) = sickness (h x)).
  { intros x. unfold upd. destruct (Nat.eqb_spec x c) as [->|]; [|reflexivity].
    rewrite moved_sickness, tick_sickness.
    pose proof (Hh c (or_introl eq_refl)) as Hc. apply is_infected_false in Hc.
    destruct (Z.geb_spec (sickness (h c)) (INFECTED k)); [lia|reflexivity]. }
  rewrite IH; [apply Hstep|].
  intros x Hx. apply is_infected_false. rewrite Hstep.
  apply is_infected_false, Hh. now right.
Qed.

Lemma tick_complete {fp : Float64} k m :
  is_complete k m = true ->
  is_complete k (Model.tick k m) = true /\
  forall r, sickness (heap (Model.tick k m) r) = sickness (heap m r).
Proof.
  intros Hc. unfold is_complete in Hc.
  pose proof (proj1 (is_complete_from_true k (heap m) (population m)) Hc) as Hall.
  rewrite tick_unfold.
  set (m1 := Model.mk _ _ _).
  assert (Hs1 : forall r, sickness (heap m1 r) = sickness (heap m r)).
  { intros r. subst m1. cbn [heap]. apply move_all_idle.
    intros x Hx. apply is_infected_false. now apply Hall. }
  destruct (check_contacts_log_spec k m1) as (_ & Hh & Hp & _).
  assert (Hidle : apply_contacts k
                    (contacts_from k (heap m1) [] (population m1) (population m1))
                    (heap m1) = heap m1).
  { apply apply_contacts_idle. intros c Hc'.
    apply contacts_from_members in Hc'. destruct Hc' as [A B].
    split; apply is_infected_false; rewrite Hs1; now apply Hall. }
  assert (Hs : forall r, sickness (heap (check_contacts k m1) r) = sickness (heap m r)).
  { intros r. rewrite Hh, Hidle. apply Hs1. }
  split; [|exact Hs].
  unfold is_complete. rewrite Hp. apply is_complete_from_true.
  intros r Hr. rewrite Hs. now apply Hall.
Qed.

Lemma complete_after {fp : Float64} k n :
  forall m, is_complete k m = true -> is_complete k (run k n m) = true.
Proof.
  induction n as [|n IH]; intros m Hc; cbn [run]; [exact Hc|].
  apply IH. now apply tick_complete.
Qed.

(** X13. A complete simulation stays complete: once [is_complete] answers
    true, every later [Model.tick] leaves every sickness as it is, so
    [is_complete] answers true after any number of further ticks. *)
Theorem complete_stays_complete {fp : Float64} :
  forall (k : Constants) (n : nat) (m : Model.t),
    is_complete k m = true ->
    is_complete k (run k n m) = true /\
    forall r, sickness (heap (run k n m) r) = sickness (heap m r).
Proof.
  intros k. induction n as [|n IH]; intros m Hc; cbn [run]; [auto|].
  destruct (tick_complete k m Hc) as [Hc1 Hs1].
  destruct (IH (Model.tick k m) Hc1) as [Hc2 Hs2].
  split; [exact Hc2|]. intros r. now rewrite Hs2.
Qed.

(** X13 on one vulnerable and one immune cell, 50 ticks later. *)
Lemma complete_stays_complete_witness :
  let fp := exact_arithmetic in
  let k := sample_constants (-1) 90 in
  let m := Model.mk (heap_of [cell_with 0; cell_with (-1)]) [0; 1]%nat 0 in
  is_complete k m = true /\ is_complete k (run k 50 m) = true.
Proof.
  intros fp.
  cbv zeta. split; [reflexivity|].
  exact (proj1 (complete_stays_complete (sample_constants (-1) 90) 50
                  (Model.mk (heap_of [cell_with 0; cell_with (-1)]) [0; 1]%nat 0)
                  eq_refl)).
Defined.

Lemma tick_time {fp : Float64} k m : time (Model.tick k m) = time m + 1.
Proof.
  rewrite tick_unfold.
  destruct (check_contacts_log_spec k
              (Model.mk (move_all k (population m) (heap m))
                        (population m) (time m + 1))) as (_ & _ & _ & Ht).
  exact Ht.
Qed.

(** X14. Ticks never add, remove or reorder cells, and count time: after
    [n] calls of [Model.tick] the population is the same list of objects and
    the tick counter has grown by [n]. *)
Theorem run_keeps_population_and_counts_time {fp : Float64} :
  forall (k : Constants) (n : nat) (m : Model.t),
    population (run k n m) = population m /\
    length (population (run k n m)) = length (population m) /\
    time (run k n m) = time m + Z.of_nat n.
Proof.
  intros k. induction n as [|n IH]; intros m; cbn [run].
  - repeat split. lia.
  - destruct (IH (Model.tick k m)) as (Hp & _ & Ht).
    rewrite Hp, Ht, tick_population, tick_time. repeat split. lia.
Qed.

(** X15. In a population of distinct objects, [Model.tick] moves every
    member exactly once, by [Cell.tick] followed by [enforce_bounds], before
    any contact is tested, and the contacts do not move it again; so with
    [MIN_X <= MAX_X] the x coordinate of every member is inside the box
    after the tick. Cells outside the population are left alone. *)
Theorem tick_moves_every_member_once {fp : Float64} :
  forall (k : Constants) (m : Model.t) (r : ref),
    NoDup (population m) ->
    (In r (population m) ->
     location (heap (Model.tick k m) r)
       = location (enforce_bounds k (Cell.tick k (heap m r))) /\
     direction (heap (Model.tick k m) r)
       = direction (enforce_bounds k (Cell.tick k (heap m r))) /\
     ((MIN_X k <= MAX_X k)%R -> within_x k (location (heap (Model.tick k m) r)))) /\
    (~ In r (population m) -> heap (Model.tick k m) r = heap m r).
Proof.
  intros k m r Hnd. rewrite tick_unfold.
  set (m1 := Model.mk _ _ _).
  destruct (check_contacts_log_spec k m1) as (_ & Hh & _).
  pose proof (apply_contacts_geometry k
                (contacts_from k (heap m1) [] (population m1) (population m1))
                (heap m1) r) as [Gl Gd].
  rewrite <- Hh in Gl, Gd. split.
  - intros Hr.
    assert (E : heap m1 r = moved k (heap m r))
      by (subst m1; cbn [heap]; now apply move_all_member).
    rewrite Gl, Gd, E. unfold moved.
    split; [reflexivity|]. split; [reflexivity|].
    intros HX. now apply enforce_bounds_x.
  - intros Hr. rewrite Hh.
    rewrite apply_contacts_elsewhere.
    + subst m1. cbn [heap]. now apply move_all_elsewhere.
    + intros c Hc. apply contacts_from_members in Hc. destruct Hc as [A B].
      subst m1. cbn [population] in A, B.
      split; intros E; rewrite E in *; contradiction.
Qed.

(** X15 on a constructed population of three cells. *)
Lemma tick_moves_every_member_once_witness :
  let fp := exact_arithmetic in
  let k := sample_constants (-1) 90 in
  let m := snd (fst (Model.init k 3 1 1 0 half_draws)) in
  NoDup (population m) /\ In 0%nat (population m) /\
  (MIN_X k <= MAX_X k)%R /\
  within_x k (location (heap (Model.tick k m) 0%nat)).
Proof.
  intros fp.
  cbv zeta.
  assert (Hnd : NoDup (population (snd (fst (Model.init (sample_constants (-1) 90)
                                                3 1 1 0 half_draws))))).
  { cbn. repeat constructor; cbn; intuition discriminate. }
  assert (Hin : In 0%nat (population (snd (fst (Model.init (sample_constants (-1) 90)
                                                  3 1 1 0 half_draws)))))
    by (vm_compute; auto).
  assert (HX : (MIN_X (sample_constants (-1) 90)
                <= MAX_X (sample_constants (-1) 90))%R) by (cbn; lra).
  split; [exact Hnd|]. split; [exact Hin|]. split; [exact HX|].
  exact (proj2 (proj2 (proj1 (tick_moves_every_member_once
                                (sample_constants (-1) 90) _ 0%nat Hnd) Hin)) HX).
Defined.

(** ** The simulation comes to an end *)

Lemma recovery_ticks_value k :
  Z.of_nat (recovery_ticks k) = Z.max 1 (RECOVERY_PERIOD k - INFECTED k).
Proof. unfold recovery_ticks. lia. Qed.

Lemma weight_bounds k s :
  0 <= weight k s <= Z.of_nat (recovery_ticks k) + 1 /\
  (INFECTED k <= s -> 1 <= weight k s).
Proof.
  unfold weight. rewrite recovery_ticks_value.
  destruct (Z.geb_spec s (INFECTED k)); [lia|].
  destruct (Z.eqb_spec s (VULNERABLE k)); lia.
Qed.

Lemma weight_infected k s :
  INFECTED k <= s -> weight k s = Z.max 1 (RECOVERY_PERIOD k - s).
Proof.
  intros H. unfold weight. destruct (Z.geb_spec s (INFECTED k)); [reflexivity|lia].
Qed.

Lemma weight_vulnerable k :
  VULNERABLE k < INFECTED k ->
  weight k (VULNERABLE k) = Z.of_nat (recovery_ticks k) + 1.
Proof.
  intros H. unfold weight.
  destruct (Z.geb_spec (VULNERABLE k) (INFECTED k)); [lia|].
  now rewrite Z.eqb_refl.
Qed.

Lemma weight_other k s :
  s < INFECTED k -> s <> VULNERABLE k -> weight k s = 0.
Proof.
  intros H1 H2. unfold weight.
  destruct (Z.geb_spec s (INFECTED k)); [lia|].
  destruct (Z.eqb_spec s (VULNERABLE k)); [contradiction|reflexivity].
Qed.

(** A tick of a cell never raises its weight, and lowers the weight of an
    infected cell. *)
Lemma weight_tick {fp : Float64} k c :
  IMMUNE k < INFECTED k -> IMMUNE k <> VULNERABLE k ->
  weight k (sickness (Cell.tick k c)) <= weight k (sickness c) /\
  (INFECTED k <= sickness c ->
   weight k (sickness (Cell.tick k c)) + 1 <= weight k (sickness c)).
Proof.
  intros H1 H2. rewrite tick_sickness.
  destruct (Z.geb_spec (sickness c) (INFECTED k)) as [Hi|Hi].
  - rewrite (weight_infected k (sickness c) Hi).
    destruct (Z.geb_spec (sickness c + 1) (RECOVERY_PERIOD k)).
    + rewrite (weight_other k (IMMUNE k) H1 H2). lia.
    + rewrite (weight_infected k (sickness c + 1)) by lia. lia.
  - split; [apply Z.le_refl|intros; lia].
Qed.

(** Contracting the disease lowers the weight of a vulnerable cell. *)
Lemma weight_contact k s s' :
  VULNERABLE k < INFECTED k ->
  s' = s \/ (s = VULNERABLE k /\ s' = INFECTED k) ->
  weight k s' <= weight k s.
Proof.
  intros HVI [->|[-> ->]]; [apply Z.le_refl|].
  rewrite (weight_vulnerable k HVI), (weight_infected k (INFECTED k)) by lia.
  rewrite recovery_ticks_value. lia.
Qed.

Lemma tick_weight {fp : Float64} k m r :
  VULNERABLE k < INFECTED k -> IMMUNE k < INFECTED k ->
  IMMUNE k <> VULNERABLE k -> NoDup (population m) ->
  In r (population m) ->
  weight k (sickness (heap (Model.tick k m) r)) <= weight k (sickness (heap m r)) /\
  (is_infected k (heap m r) = true ->
   weight k (sickness (heap (Model.tick k m) r)) + 1
   <= weight k (sickness (heap m r))).
Proof.
  intros HVI HMI HMV Hnd Hr. rewrite tick_unfold.
  set (m1 := Model.mk _ _ _).
  destruct (check_contacts_log_spec k m1) as (_ & Hh & _).
  rewrite Hh.
  pose proof (apply_contacts_sickness k
                (contacts_from k (heap m1) [] (population m1) (population m1))
                (heap m1) r) as Hs.
  assert (Hs' : sickness (apply_contacts k
                   (contacts_from k (heap m1) [] (population m1) (population m1))
                   (heap m1) r) = sickness (heap m1 r) \/
                (sickness (heap m1 r) = VULNERABLE k /\
                 sickness (apply_contacts k
                   (contacts_from k (heap m1) [] (population m1) (population m1))
                   (heap m1) r) = INFECTED k)) by tauto.
  pose proof (weight_contact k _ _ HVI Hs') as Hw.
  assert (E : sickness (heap m1 r) = sickness (Cell.tick k (heap m r))).
  { subst m1. cbn [heap]. rewrite move_all_member by assumption.
    apply moved_sickness. }
  rewrite E in Hw.
  destruct (weight_tick k (heap m r) HMI HMV) as [T1 T2].
  split; [lia|]. intros Hi. apply is_infected_true in Hi.
  specialize (T2 Hi). lia.
Qed.

Lemma potential_le k h h' pop :
  (forall r, In r pop ->
     weight k (sickness (h' r)) <= weight k (sickness (h r))) ->
  potential k h' pop <= potential k h pop.
Proof.
  induction pop as [|c pop IH]; intros H; cbn; [lia|].
  specialize (H c (or_introl eq_refl)) as Hc.
  assert (potential k h' pop <= potential k h pop)
    by (apply IH; intros; apply H; now right).
  unfold potential in *. lia.
Qed.

Lemma potential_lt k h h' pop r :
  (forall x, In x pop ->
     weight k (sickness (h' x)) <= weight k (sickness (h x))) ->
  In r pop ->
  weight k (sickness (h' r)) + 1 <= weight k (sickness (h r)) ->
  potential k h' pop + 1 <= potential k h pop.
Proof.
  induction pop as [|c pop IH]; intros H Hr Hlt; [destruct Hr|].
  cbn. fold (potential k h' pop). fold (potential k h pop).
  pose proof (H c (or_introl eq_refl)) as Hc.
  assert (Hrest : forall x, In x pop ->
            weight k (sickness (h' x)) <= weight k (sickness (h x)))
    by (intros; apply H; now right).
  destruct Hr as [->|Hr].
  - pose proof (potential_le k h h' pop Hrest). lia.
  - specialize (IH Hrest Hr Hlt). lia.
Qed.

Lemma potential_bounds k h pop :
  0 <= potential k h pop
  <= Z.of_nat (length pop) * (Z.of_nat (recovery_ticks k) + 1) /\
  (forall r, In r pop -> is_infected k (h r) = true -> 1 <= potential k h pop).
Proof.
  induction pop as [|c pop (IH1 & IH2)]; cbn [potential fold_right length].
  - split; [lia|intros r []].
  - fold (potential k h pop).
    destruct (weight_bounds k (sickness (h c))) as [W1 W2].
    split; [nia|].
    intros r [->|Hr] Hi.
    + apply is_infected_true in Hi. specialize (W2 Hi). lia.
    + specialize (IH2 r Hr Hi). lia.
Qed.

Lemma not_complete_infected k h pop :
  is_complete_from k h pop = false ->
  exists r, In r pop /\ is_infected k (h r) = true.
Proof.
  induction pop as [|c pop IH]; cbn; [discriminate|].
  destruct (is_infected k (h c)) eqn:E.
  - intros _. exists c. auto.
  - intros H. destruct (IH H) as (r & Hr & Hi). exists r. auto.
Qed.

Lemma run_completes {fp : Float64} k :
  VULNERABLE k < INFECTED k -> IMMUNE k < INFECTED k ->
  IMMUNE k <> VULNERABLE k ->
  forall n m,
    NoDup (population m) ->
    potential k (heap m) (population m) <= Z.of_nat n ->
    is_complete k (run k n m) = true.
Proof.
  intros HVI HMI HMV. induction n as [|n IH]; intros m Hnd Hp.
  - cbn [run]. unfold is_complete.
    destruct (is_complete_from k (heap m) (population m)) eqn:E; [reflexivity|].
    apply not_complete_infected in E. destruct E as (r & Hr & Hi).
    pose proof (proj2 (potential_bounds k (heap m) (population m)) r Hr Hi). lia.
  - destruct (is_complete k m) eqn:E.
    + apply complete_after. exact E.
    + cbn [run]. apply IH.
      * now rewrite tick_population.
      * unfold is_complete in E. apply not_complete_infected in E.
        destruct E as (r & Hr & Hi).
        rewrite tick_population.
        assert (potential k (heap (Model.tick k m)) (population m) + 1
                <= potential k (heap m) (population m)).
        { apply (potential_lt k _ _ _ r).
          - intros x Hx. now apply tick_weight.
          - exact Hr.
          - now apply tick_weight. }
        lia.
Qed.

(** X16. The simulation comes to an end. In a configuration with
    [VULNERABLE < INFECTED], [IMMUNE < INFECTED] and
    [IMMUNE <> VULNERABLE], and with a population of distinct objects,
    [is_complete] answers true after at most
    [cells * (max 1 (RECOVERY_PERIOD - INFECTED) + 1)] calls of [Model.tick],
    and after any larger number of calls, wherever the cells stand and
    however they move. *)
Theorem simulation_completes {fp : Float64} :
  forall (k : Constants) (m : Model.t) (n : nat),
    VULNERABLE k < INFECTED k -> IMMUNE k < INFECTED k ->
    IMMUNE k <> VULNERABLE k ->
    NoDup (population m) ->
    (length (population m) * (recovery_ticks k + 1) <= n)%nat ->
    is_complete k (run k n m) = true.
Proof.
  intros k m n HVI HMI HMV Hnd Hn.
  apply run_completes; auto.
  pose proof (proj1 (potential_bounds k (heap m) (population m))) as [_ Hb].
  nia.
Qed.

(** X16 on the constructed simulation [Model(3, 1.0, 1, 0)] with a recovery
    period of 90: complete after 270 ticks. *)
Lemma simulation_completes_witness :
  let fp := exact_arithmetic in
  let k := sample_constants (-1) 90 in
  let m := snd (fst (Model.init k 3 1 1 0 half_draws)) in
  VULNERABLE k < INFECTED k /\ IMMUNE k < INFECTED k /\
  IMMUNE k <> VULNERABLE k /\ NoDup (population m) /\
  (length (population m) * (recovery_ticks k + 1) <= 270)%nat /\
  is_complete k (run k 270 m) = true.
Proof.
  intros fp.
  cbv zeta.
  assert (H1 : VULNERABLE (sample_constants (-1) 90)
               < INFECTED (sample_constants (-1) 90)) by (simpl; lia).
  assert (H2 : IMMUNE (sample_constants (-1) 90)
               < INFECTED (sample_constants (-1) 90)) by (simpl; lia).
  assert (H3 : IMMUNE (sample_constants (-1) 90)
               <> VULNERABLE (sample_constants (-1) 90)) by (simpl; lia).
  assert (H4 : NoDup (population (snd (fst (Model.init (sample_constants (-1) 90)
                                               3 1 1 0 half_draws))))).
  { vm_compute. repeat constructor; cbn; intuition discriminate. }
  assert (H5 : (length (population (snd (fst (Model.init (sample_constants (-1) 90)
                                                3 1 1 0 half_draws))))
                * (recovery_ticks (sample_constants (-1) 90) + 1) <= 270)%nat).
  { vm_compute. lia. }
  repeat (split; [assumption|]).
  exact (simulation_completes (sample_constants (-1) 90) _ 270 H1 H2 H3 H4 H5).
Defined.

(** ** A fresh simulation *)

(** X17. A simulation that has just been constructed is never complete,
    in any configuration: the constructor demands at least one infected
    cell, and a cell seeded with [INFECTED] passes [is_infected]. *)
Theorem fresh_model_is_not_complete {fp : Float64} :
  forall (k : Constants) (cells : Z) (speed : R)
         (start_infected start_immune : Z) (draws : Random),
    valid_arguments cells start_infected start_immune ->
    is_complete k (snd (fst (Model.init k cells speed start_infected
                                        start_immune draws))) = false.
Proof.
  intros k cells speed si sm draws Hv.
  destruct (init_population k cells speed si sm draws Hv) as [_ Hs].
  cbv zeta in Hs.
  set (m := snd (fst (Model.init k cells speed si sm draws))) in *.
  destruct (is_complete k m) eqn:E; [|reflexivity]. exfalso.
  unfold is_complete in E.
  pose proof (proj1 (is_complete_from_true k (heap m) (population m)) E) as Hall.
  assert (Hin : In (INFECTED k) (map sickness (members m))).
  { rewrite Hs. apply in_or_app. right. apply in_or_app. left.
    unfold valid_arguments in Hv.
    destruct (Z.to_nat si) as [|n] eqn:En; [lia|]. cbn. now left. }
  apply in_map_iff in Hin. destruct Hin as (c & Hc & Hcin).
  unfold members in Hcin. apply in_map_iff in Hcin.
  destruct Hcin as (r & <- & Hr).
  specialize (Hall r Hr). lia.
Qed.

(** X17 on [Model(3, 1.0, 1, 1)]. *)
Lemma fresh_model_is_not_complete_witness :
  let fp := exact_arithmetic in
  valid_arguments 3 1 1 /\
  is_complete (sample_constants (-1) 90)
    (snd (fst (Model.init (sample_constants (-1) 90) 3 1 1 1 half_draws)))
  = false.
Proof.
  intros fp.
  assert (Hv : valid_arguments 3 1 1) by (unfold valid_arguments; lia).
  split; [exact Hv|].
  exact (fresh_model_is_not_complete (sample_constants (-1) 90) 3 1 1 1
           half_draws Hv).
Defined.

(** ** Invariants of the run *)

Lemma enforce_bounds_norm2 k c :
  norm2 (direction (enforce_bounds k c)) = norm2 (direction c).
Proof. unfold norm2. bounds_cases k c; ring. Qed.

Lemma tick_member {fp : Float64} k m r :
  NoDup (population m) -> In r (population m) ->
  direction (heap (Model.tick k m) r) = direction (moved k (heap m r)) /\
  (sickness (heap (Model.tick k m) r) = sickness (Cell.tick k (heap m r)) \/
   (sickness (Cell.tick k (heap m r)) = VULNERABLE k /\
    sickness (heap (Model.tick k m) r) = INFECTED k)).
Proof.
  intros Hnd Hr. rewrite tick_unfold.
  set (m1 := Model.mk _ _ _).
  destruct (check_contacts_log_spec k m1) as (_ & Hh & _).
  assert (E : heap m1 r = moved k (heap m r))
    by (subst m1; cbn [heap]; now apply move_all_member).
  rewrite Hh. split.
  - rewrite (proj2 (apply_contacts_geometry k _ (heap m1) r)). now rewrite E.
  - rewrite <- moved_sickness, <- E. apply apply_contacts_sickness.
Qed.

(** X18. Speed is conserved. In a population of distinct objects, the
    length of every member's direction vector is the same after any number
    of calls of [Model.tick]: moving never changes the direction and a
    bounce only negates one of its coordinates. *)
Theorem run_keeps_speed {fp : Float64} :
  forall (k : Constants) (n : nat) (m : Model.t) (r : ref),
    NoDup (population m) -> In r (population m) ->
    norm2 (direction (heap (run k n m) r)) = norm2 (direction (heap m r)).
Proof.
  intros k. induction n as [|n IH]; intros m r Hnd Hr; cbn [run]; [reflexivity|].
  rewrite IH by (rewrite tick_population; assumption).
  rewrite (proj1 (tick_member k m r Hnd Hr)). unfold moved.
  rewrite enforce_bounds_norm2.
  now rewrite (proj2 (tick_geometry k (heap m r))).
Qed.

(** X18 on a constructed population after 40 ticks: squared speed 1. *)
Lemma run_keeps_speed_witness :
  let fp := exact_arithmetic in
  let k := sample_constants (-1) 90 in
  let m := snd (fst (Model.init k 3 1 1 0 half_draws)) in
  NoDup (population m) /\ In 2%nat (population m) /\
  norm2 (direction (heap (run k 40 m) 2%nat))
  = norm2 (direction (heap m 2%nat)).
Proof.
  intros fp.
  cbv zeta.
  assert (Hnd : NoDup (population (snd (fst (Model.init (sample_constants (-1) 90)
                                                3 1 1 0 half_draws))))).
  { vm_compute. repeat constructor; cbn; intuition discriminate. }
  assert (Hin : In 2%nat (population (snd (fst (Model.init (sample_constants (-1) 90)
                                                  3 1 1 0 half_draws)))))
    by (vm_compute; auto).
  split; [exact Hnd|]. split; [exact Hin|].
  exact (run_keeps_speed (sample_constants (-1) 90) 40 _ 2%nat Hnd Hin).
Defined.

(** X19. Immunity is permanent and there is no second infection. In a
    configuration with [IMMUNE < INFECTED] and [IMMUNE <> VULNERABLE], and
    with a population of distinct objects, a member that is immune stays
    immune, with sickness [IMMUNE], after any number of calls of
    [Model.tick], whatever cells it meets. *)
Theorem immunity_is_permanent {fp : Float64} :
  forall (k : Constants) (n : nat) (m : Model.t) (r : ref),
    IMMUNE k < INFECTED k -> IMMUNE k <> VULNERABLE k ->
    NoDup (population m) -> In r (population m) ->
    is_immune k (heap m r) = true ->
    is_immune k (heap (run k n m) r) = true /\
    is_infected k (heap (run k n m) r) = false /\
    is_vulnerable k (heap (run k n m) r) = false.
Proof.
  intros k n m r HMI HMV. revert m.
  assert (Hq : forall c, sickness c = IMMUNE k ->
            is_immune k c = true /\ is_infected k c = false /\
            is_vulnerable k c = false).
  { intros c E. split; [now apply is_immune_true|].
    split; [apply is_infected_false; lia|].
    unfold is_vulnerable. apply Z.eqb_neq. lia. }
  induction n as [|n IH]; intros m Hnd Hr Hi; cbn [run].
  - apply Hq. now apply is_immune_true.
  - apply IH; try (rewrite tick_population; assumption).
    apply is_immune_true in Hi. apply is_immune_true.
    assert (Et : sickness (Cell.tick k (heap m r)) = IMMUNE k).
    { rewrite tick_sickness, Hi.
      destruct (Z.geb_spec (IMMUNE k) (INFECTED k)); [lia|reflexivity]. }
    destruct (proj2 (tick_member k m r Hnd Hr)) as [E|[E _]]; congruence.
Qed.

(** X19 on an immune cell standing on an infected one for 30 ticks. *)
Lemma immunity_is_permanent_witness :
  let fp := exact_arithmetic in
  let k := sample_constants (-1) 90 in
  let m := Model.mk (heap_of [cell_with (-1); cell_with 1]) [0; 1]%nat 0 in
  IMMUNE k < INFECTED k /\ IMMUNE k <> VULNERABLE k /\
  NoDup (population m) /\ In 0%nat (population m) /\
  is_immune k (heap m 0%nat) = true /\
  is_immune k (heap (run k 30 m) 0%nat) = true.
Proof.
  intros fp.
  cbv zeta.
  assert (H1 : IMMUNE (sample_constants (-1) 90)
               < INFECTED (sample_constants (-1) 90)) by (simpl; lia).
  assert (H2 : IMMUNE (sample_constants (-1) 90)
               <> VULNERABLE (sample_constants (-1) 90)) by (simpl; lia).
  assert (H3 : NoDup [0; 1]%nat)
    by (repeat constructor; cbn; intuition discriminate).
  assert (H4 : In 0%nat [0; 1]%nat) by (cbn; auto).
  split; [exact H1|]. split; [exact H2|]. split; [exact H3|].
  split; [exact H4|]. split; [reflexivity|].
  exact (proj1 (immunity_is_permanent (sample_constants (-1) 90) 30
                  (Model.mk (heap_of [cell_with (-1); cell_with 1]) [0; 1]%nat 0)
                  0%nat H1 H2 H3 H4 eq_refl)).
Defined.

(** ** More on contacts *)

(** X20. With [VULNERABLE < INFECTED] the transmission rule is symmetric:
    [a.contact_with(b)] and [b.contact_with(a)] leave every cell in the same
    state. *)
Theorem contact_with_is_symmetric :
  forall (k : Constants) (a b : ref) (h : Heap) (r : ref),
    VULNERABLE k < INFECTED k ->
    contact_with k a b h r = contact_with k b a h r.
Proof.
  intros k a b h r HVI. unfold contact_with.
  destruct (is_infected k (h a)) eqn:Ia; destruct (is_vulnerable k (h a)) eqn:Va;
    destruct (is_infected k (h b)) eqn:Ib; destruct (is_vulnerable k (h b)) eqn:Vb;
    cbn [andb]; try reflexivity;
    repeat match goal with
    | H : is_infected _ _ = true |- _ => apply is_infected_true in H
    | H : is_vulnerable _ _ = true |- _ => apply is_vulnerable_true in H
    end; lia.
Qed.

(** X20 on an infected and a vulnerable cell. *)
Lemma contact_with_is_symmetric_witness :
  let k := sample_constants (-1) 90 in
  let h := heap_of [cell_with 1; cell_with 0] in
  VULNERABLE k < INFECTED k /\
  contact_with k 0%nat 1%nat h 1%nat = contact_with k 1%nat 0%nat h 1%nat.
Proof.
  cbv zeta.
  assert (HVI : VULNERABLE (sample_constants (-1) 90)
                < INFECTED (sample_constants (-1) 90)) by (simpl; lia).
  split; [exact HVI|].
  exact (contact_with_is_symmetric (sample_constants (-1) 90) 0%nat 1%nat
           (heap_of [cell_with 1; cell_with 0]) 1%nat HVI).
Defined.

Lemma count_monotone (q : Cell.t -> bool) (h h' : Heap) pop :
  (forall r, In r pop -> q (h r) = true -> q (h' r) = true) ->
  count q (map h pop) <= count q (map h' pop).
Proof.
  unfold count. induction pop as [|c pop IH]; intros H; cbn; [lia|].
  assert (IH' : Z.of_nat (length (filter q (map h pop)))
                <= Z.of_nat (length (filter q (map h' pop))))
    by (apply IH; intros; apply H; auto; now right).
  pose proof (H c (or_introl eq_refl)) as Hc.
  destruct (q (h c)) eqn:E.
  - rewrite (Hc eq_refl). cbn [length]. lia.
  - destruct (q (h' c)); cbn [length]; lia.
Qed.

(** X21. [is_complete] answers true exactly when the number of population
    members that pass [is_infected] is zero. *)
Theorem is_complete_iff_no_infected_member :
  forall (k : Constants) (m : Model.t),
    is_complete k m = true <-> count (is_infected k) (members m) = 0.
Proof.
  intros k m. unfold is_complete, members, count.
  induction (population m) as [|c pop IH]; cbn.
  - split; reflexivity.
  - destruct (is_infected k (heap m c)) eqn:E; cbn [length].
    + split; [discriminate|lia].
    + exact IH.
Qed.

(** X22. A contact pass never cures and never makes vulnerable: the number
    of members that pass [is_infected] does not decrease in
    [check_contacts], and with [VULNERABLE <> INFECTED] the numbers of
    members that pass [is_vulnerable] does not increase, while the number of
    members is the same. *)
Theorem check_contacts_counts {fp : Float64} :
  forall (k : Constants) (m : Model.t),
    count (is_infected k) (members m)
      <= count (is_infected k) (members (check_contacts k m)) /\
    (VULNERABLE k <> INFECTED k ->
     count (is_vulnerable k) (members (check_contacts k m))
       <= count (is_vulnerable k) (members m)) /\
    length (members (check_contacts k m)) = length (members m).
Proof.
  intros k m. destruct (check_contacts_log_spec k m) as (_ & Hh & Hp & _).
  unfold members. rewrite Hp, Hh. split; [|split].
  - apply count_monotone. intros r _. apply apply_contacts_keeps_infected.
  - intros Hne. apply count_monotone. intros r _ Hv.
    apply is_vulnerable_true in Hv. apply is_vulnerable_true.
    destruct (apply_contacts_sickness k
                (contacts_from k (heap m) [] (population m) (population m))
                (heap m) r) as [E|[E1 E2]]; lia.
  - now rewrite !length_map.
Qed.
